(** * CrisisVault: vault unlock and session lifecycle

    A shallow embedding of the runtime core of CrisisVault:
    - [src/utils/crypto.ts]   key derivation, HMAC check, decryption, wiping;
    - [src/utils/security.ts] the progressive-lockout [RateLimiter];
    - [src/store/authStore.ts] the session store ([unlock], [wipe]);
    - [src/components/UnlockScreen.tsx] the submit handler guarding [unlock].

    JavaScript numbers are integers in every use made of them here and are
    modelled by [Z]; typed-array elements are [byte]s; a string is modelled by
    its UTF-8 byte sequence (the hexadecimal strings the code inspects by
    index are ASCII, where code units and bytes coincide).  Module-level
    mutable objects (the [globalRateLimiter] singleton, the zustand store)
    live in one [World] record threaded through a state-and-exception monad.
    Browser primitives the repository only calls (HMAC, AES-GCM, [atob],
    [JSON.stringify], the clock, the random source) are fields of a
    [Platform] record.  [unlock] is asynchronous in the source; it is modelled
    run to completion, its [await]s being the points where the platform is
    called. *)

From Stdlib Require Import ZArith NArith List String Ascii Bool Lia.
From Stdlib Require Import Strings.Byte.
Import ListNotations.
Local Open Scope Z_scope.

(** ** Results and exceptions *)

Inductive Exn : Type :=
| InvalidHexString      (* Error('Invalid hex string'), thrown by hexToBuffer *)
| InvalidCharacterError (* DOMException of atob *)
| OperationError        (* DOMException of crypto.subtle.decrypt / sign *)
| QuotaExceededError.   (* DOMException of crypto.getRandomValues *)

Inductive Result (A : Type) : Type :=
| Ok (a : A)
| Throw (e : Exn).
Arguments Ok {A} a.
Arguments Throw {A} e.

Definition isOk {A} (r : Result A) : bool :=
  match r with Ok _ => true | Throw _ => false end.

(** ** Bytes and typed arrays *)

Definition Uint8Array : Type := list byte.

(** Storing a number into a [Uint8Array] slot keeps it modulo 256. *)
Definition ToUint8 (n : N) : byte :=
  match Byte.of_N (n mod 256) with
  | Some b => b
  | None => x00
  end.

(** [new Uint8Array(length)]: zero-initialised. *)
Definition newUint8Array (length : nat) : Uint8Array := repeat x00 length.

(** [buffer[i] = v]; a write past the end of a typed array is ignored. *)
Fixpoint setIndex (buffer : Uint8Array) (i : nat) (v : byte) : Uint8Array :=
  match buffer, i with
  | [], _ => []
  | _ :: rest, O => v :: rest
  | b :: rest, S j => b :: setIndex rest j v
  end.

(** [buffer[i]] as a number ([undefined] past the end is never reached by the
    loops below, which stay under [buffer.length]). *)
Definition getIndex (buffer : Uint8Array) (i : nat) : N :=
  Byte.to_N (nth i buffer x00).

(** [buffer.fill(0)]. *)
Definition fill0 (buffer : Uint8Array) : Uint8Array :=
  map (fun _ => x00) buffer.

(** [for (let i = start; i < start + count; i++) body(i)] over a loop state. *)
Fixpoint forRange {S : Type} (count : nat) (i : nat) (body : nat -> S -> S) (s : S) : S :=
  match count with
  | O => s
  | Datatypes.S k => forRange k (Datatypes.S i) body (body i s)
  end.

(** ** Strings *)

Definition isEmptyString (s : string) : bool :=
  match s with EmptyString => true | String _ _ => false end.

(** [new TextEncoder().encode(s)]. *)
Definition TextEncoder_encode (s : string) : Uint8Array := list_byte_of_string s.

(** Value of one hexadecimal digit, [None] for any other character. *)
Definition hexDigitValue (c : ascii) : option N :=
  let n := N_of_ascii c in
  if ((48 <=? n) && (n <=? 57))%N then Some (n - 48)%N
  else if ((97 <=? n) && (n <=? 102))%N then Some (n - 87)%N
  else if ((65 <=? n) && (n <=? 70))%N then Some (n - 55)%N
  else None.

Definition isHexDigit (c : ascii) : bool :=
  match hexDigitValue c with Some _ => true | None => false end.

(** [/^[0-9a-fA-F]*$/.test(hex)]. *)
Definition isHexString (hex : string) : bool :=
  forallb isHexDigit (list_ascii_of_string hex).

(** [parseInt(s, 16)]: the value of the longest prefix of hexadecimal digits,
    [None] (NaN) when there is none. *)
Fixpoint parseHexPrefix (cs : list ascii) (acc : option N) : option N :=
  match cs with
  | [] => acc
  | c :: rest =>
      match hexDigitValue c with
      | Some d =>
          parseHexPrefix rest
            (Some (match acc with Some a => 16 * a + d | None => d end)%N)
      | None => acc
      end
  end.

Definition parseInt16 (s : string) : option N :=
  parseHexPrefix (list_ascii_of_string s) None.

(** Storing the result of [parseInt] in a typed array: NaN is stored as 0. *)
Definition storeNumber (v : option N) : byte :=
  match v with Some n => ToUint8 n | None => x00 end.

(** [hexToBuffer] (crypto.ts). *)
Definition hexToBuffer (hex : string) : Result Uint8Array :=
  if negb (isHexString hex) || negb (Nat.eqb (String.length hex mod 2) 0) then
    Throw InvalidHexString
  else
    let length := (String.length hex / 2)%nat in
    let buffer := newUint8Array length in
    Ok (forRange length 0%nat
          (fun i buffer =>
             setIndex buffer i
               (storeNumber (parseInt16 (substring (i * 2) 2 hex))))
          buffer).

(** ** Data model *)

(** [CRYPTO_CONFIG] (crypto.ts). *)
Module CRYPTO_CONFIG.
Definition ALGORITHM : string := "AES-GCM".
Definition KEY_LENGTH : Z := 256.
Definition IV_LENGTH : Z := 12.
Definition SALT_LENGTH : Z := 16.
Definition TAG_LENGTH : Z := 128.
Definition KDF_ALGORITHM : string := "PBKDF2".
Definition HASH_ALGORITHM : string := "SHA-256".
Definition ITERATIONS : Z := 600000.
End CRYPTO_CONFIG.

(** [SECURITY_CONFIG] (security.ts), the fields the limiter reads. *)
Module SECURITY_CONFIG.
Definition MAX_UNLOCK_ATTEMPTS : Z := 5.
Definition LOCKOUT_BASE_MS : Z := 15000.
Definition LOCKOUT_MULTIPLIER : Z := 2.
Definition MAX_LOCKOUT_MS : Z := 300000.
Definition SESSION_TIMEOUT_MS : Z := 15 * 60 * 1000.
End SECURITY_CONFIG.

(** The first argument of [crypto.subtle.deriveKey]. *)
Record Pbkdf2Params : Type := {
  kdf_name : string;
  kdf_salt : Uint8Array;
  kdf_iterations : Z;
  kdf_hash : string
}.

(** The third argument of [crypto.subtle.deriveKey]. *)
Record DerivedKeyAlgorithm : Type := {
  alg_name : string;
  alg_hash : option string;
  alg_length : Z
}.

(** The first argument of [crypto.subtle.decrypt]. *)
Record AesGcmParams : Type := {
  gcm_name : string;
  gcm_iv : Uint8Array;
  gcm_tagLength : Z
}.

(** A [CryptoKey] is opaque to the program; it is modelled by the call that
    produced it, which is all the platform needs to determine its bits. *)
Inductive CryptoKey : Type :=
| ImportedKey (format : string) (keyData : Uint8Array) (algorithm : string)
    (extractable : bool) (usages : list string)
| DerivedKey (params : Pbkdf2Params) (baseKey : CryptoKey)
    (derivedKeyType : DerivedKeyAlgorithm) (extractable : bool)
    (usages : list string).

Module VaultFile.
Record t : Type := {
  id : string;
  title : string;
  priority : option string;
  tags : option (list string);
  iv : string;
  data : string
}.
End VaultFile.

Record VaultManifest : Type := {
  salt : string;
  hmac : option string;
  generatedAt : string;
  files : list VaultFile.t
}.

Module DecryptedFile.
Record t : Type := {
  id : string;
  title : string;
  priority : option string;
  tags : option (list string);
  content : string
}.
(** [file.content = c]. *)
Definition set_content (c : string) (file : t) : t :=
  {| id := id file; title := title file; priority := priority file;
     tags := tags file; content := c |}.
End DecryptedFile.

Inductive AuthErrorCode : Type :=
| INVALID_PASSPHRASE
| RATE_LIMITED
| INTEGRITY_FAILURE
| VAULT_EMPTY.

(** [AuthError]: one of the four codes or [null]. *)
Definition AuthError : Type := option AuthErrorCode.

Record AuthState : Type := {
  isUnlocked : bool;
  masterKey : option CryptoKey;
  decryptedFiles : list DecryptedFile.t;
  error : AuthError;
  errorMessage : string;
  isDecrypting : bool;
  lockoutRemainingMs : Z
}.

Record RateLimitState : Type := {
  attempts : Z;
  lockedUntil : Z;
  lastAttempt : Z
}.

(** Calls into the platform that the properties below speak about. *)
Inductive Event : Type :=
| EvDeriveKey (params : Pbkdf2Params) (derivedKeyType : DerivedKeyAlgorithm)
| EvSign (key : CryptoKey)
| EvDecrypt (key : CryptoKey) (params : AesGcmParams)
| EvGetRandomValues (byteLength : nat).

(** The mutable state of the page: the [globalRateLimiter] singleton, the
    zustand store, how many times the clock and the random source have been
    read, and the platform calls made so far (oldest first). *)
Record World : Type := {
  limiter : RateLimitState;
  store : AuthState;
  ticks : nat;
  drawn : nat;
  trace : list Event
}.

(** What the browser provides. *)
Record Platform : Type := {
  (** the value of the [k]-th call of [Date.now()] *)
  Date_now : nat -> Z;
  (** the [k]-th byte delivered by [crypto.getRandomValues] *)
  randomByte : nat -> byte;
  (** [crypto.subtle.sign('HMAC', key, data)] *)
  subtle_sign : CryptoKey -> Uint8Array -> Result Uint8Array;
  (** [crypto.subtle.decrypt(params, key, data)] *)
  subtle_decrypt : AesGcmParams -> CryptoKey -> Uint8Array -> Result Uint8Array;
  (** [atob(base64)]: a binary string, one character per byte *)
  atob : string -> Result string;
  (** [JSON.stringify(vaultData.files)] *)
  JSON_stringify : list VaultFile.t -> string;
  (** [new TextDecoder().decode(buffer)] *)
  TextDecoder_decode : Uint8Array -> string
}.

(** ** The monad: state of the page plus exceptions *)

Definition M (A : Type) : Type := World -> Result A * World.

Definition ret {A} (a : A) : M A := fun w => (Ok a, w).

Definition bind {A B} (m : M A) (k : A -> M B) : M B :=
  fun w =>
    match m w with
    | (Ok a, w') => k a w'
    | (Throw e, w') => (Throw e, w')
    end.

(** [try { body } catch { handler }]. *)
Definition tryCatch {A} (body : M A) (handler : M A) : M A :=
  fun w =>
    match body w with
    | (Ok a, w') => (Ok a, w')
    | (Throw _, w') => handler w'
    end.

Definition liftR {A} (r : Result A) : M A := fun w => (r, w).

Declare Scope monad_scope.
Delimit Scope monad_scope with monad.
Notation "x <- m ;; k" := (bind m (fun x => k))
  (at level 61, m at next level, right associativity) : monad_scope.
Notation "m ;; k" := (bind m (fun _ => k))
  (at level 61, right associativity) : monad_scope.
Local Open Scope monad_scope.

Definition emit (e : Event) : M unit :=
  fun w =>
    (Ok tt, {| limiter := limiter w; store := store w; ticks := ticks w;
               drawn := drawn w; trace := trace w ++ [e] |}).

(** zustand's [get()]. *)
Definition get : M AuthState := fun w => (Ok (store w), w).

(** zustand's [set(patch)]: the fields of the patch replace those of the
    state; [patch] is given as the function performing that merge. *)
Definition set (patch : AuthState -> AuthState) : M unit :=
  fun w =>
    (Ok tt, {| limiter := limiter w; store := patch (store w); ticks := ticks w;
               drawn := drawn w; trace := trace w |}).

Definition getLimiter : M RateLimitState := fun w => (Ok (limiter w), w).

Definition updateLimiter (f : RateLimitState -> RateLimitState) : M unit :=
  fun w =>
    (Ok tt, {| limiter := f (limiter w); store := store w; ticks := ticks w;
               drawn := drawn w; trace := trace w |}).

(** One patch field each. *)
Definition isUnlocked_ (v : bool) (s : AuthState) : AuthState :=
  {| isUnlocked := v; masterKey := masterKey s;
     decryptedFiles := decryptedFiles s; error := error s;
     errorMessage := errorMessage s; isDecrypting := isDecrypting s;
     lockoutRemainingMs := lockoutRemainingMs s |}.
Definition masterKey_ (v : option CryptoKey) (s : AuthState) : AuthState :=
  {| isUnlocked := isUnlocked s; masterKey := v;
     decryptedFiles := decryptedFiles s; error := error s;
     errorMessage := errorMessage s; isDecrypting := isDecrypting s;
     lockoutRemainingMs := lockoutRemainingMs s |}.
Definition decryptedFiles_ (v : list DecryptedFile.t) (s : AuthState) : AuthState :=
  {| isUnlocked := isUnlocked s; masterKey := masterKey s;
     decryptedFiles := v; error := error s;
     errorMessage := errorMessage s; isDecrypting := isDecrypting s;
     lockoutRemainingMs := lockoutRemainingMs s |}.
Definition error_ (v : AuthError) (s : AuthState) : AuthState :=
  {| isUnlocked := isUnlocked s; masterKey := masterKey s;
     decryptedFiles := decryptedFiles s; error := v;
     errorMessage := errorMessage s; isDecrypting := isDecrypting s;
     lockoutRemainingMs := lockoutRemainingMs s |}.
Definition errorMessage_ (v : string) (s : AuthState) : AuthState :=
  {| isUnlocked := isUnlocked s; masterKey := masterKey s;
     decryptedFiles := decryptedFiles s; error := error s;
     errorMessage := v; isDecrypting := isDecrypting s;
     lockoutRemainingMs := lockoutRemainingMs s |}.
Definition isDecrypting_ (v : bool) (s : AuthState) : AuthState :=
  {| isUnlocked := isUnlocked s; masterKey := masterKey s;
     decryptedFiles := decryptedFiles s; error := error s;
     errorMessage := errorMessage s; isDecrypting := v;
     lockoutRemainingMs := lockoutRemainingMs s |}.
Definition lockoutRemainingMs_ (v : Z) (s : AuthState) : AuthState :=
  {| isUnlocked := isUnlocked s; masterKey := masterKey s;
     decryptedFiles := decryptedFiles s; error := error s;
     errorMessage := errorMessage s; isDecrypting := isDecrypting s;
     lockoutRemainingMs := v |}.

Section Vault.

Variable P : Platform.

(** [vaultData]: the manifest imported from [src/data/vault.json]. *)
Variable vaultData : VaultManifest.

(** ** Platform calls *)

(** [Date.now()]. *)
Definition DateNow : M Z :=
  fun w =>
    (Ok (Date_now P (ticks w)),
     {| limiter := limiter w; store := store w; ticks := Datatypes.S (ticks w);
        drawn := drawn w; trace := trace w |}).

(** [crypto.subtle.importKey]. *)
Definition subtle_importKey (format : string) (keyData : Uint8Array)
    (algorithm : string) (extractable : bool) (usages : list string) : M CryptoKey :=
  ret (ImportedKey format keyData algorithm extractable usages).

(** [crypto.subtle.deriveKey]: the iterated derivation itself. *)
Definition subtle_deriveKey (params : Pbkdf2Params) (baseKey : CryptoKey)
    (derivedKeyType : DerivedKeyAlgorithm) (extractable : bool)
    (usages : list string) : M CryptoKey :=
  emit (EvDeriveKey params derivedKeyType) ;;
  ret (DerivedKey params baseKey derivedKeyType extractable usages).

Definition sign (key : CryptoKey) (data : Uint8Array) : M Uint8Array :=
  emit (EvSign key) ;;
  liftR (subtle_sign P key data).

Definition decrypt (params : AesGcmParams) (key : CryptoKey)
    (data : Uint8Array) : M Uint8Array :=
  emit (EvDecrypt key params) ;;
  liftR (subtle_decrypt P params key data).

(** [crypto.getRandomValues(buffer)].  The Web Cryptography API makes the call
    throw a QuotaExceededError, writing nothing, when the array is longer than
    65536 bytes; otherwise every element is overwritten.  The result is the
    content of the array after the call. *)
Definition getRandomValues (buffer : Uint8Array) : M Uint8Array :=
  fun w =>
    if 65536 <? Z.of_nat (List.length buffer) then (Throw QuotaExceededError, w)
    else
      (Ok (map (fun k => randomByte P (drawn w + k)) (seq 0 (List.length buffer))),
       {| limiter := limiter w; store := store w; ticks := ticks w;
          drawn := (drawn w + List.length buffer)%nat;
          trace := trace w ++ [EvGetRandomValues (List.length buffer)] |}).

(** ** crypto.ts *)

Definition importPasswordKey (passphrase : string) : M CryptoKey :=
  let keyMaterial := TextEncoder_encode passphrase in
  subtle_importKey "raw" keyMaterial CRYPTO_CONFIG.KDF_ALGORITHM false ["deriveKey"%string].

Definition deriveKey (passphrase : string) (saltHex : string) : M CryptoKey :=
  passwordKey <- importPasswordKey passphrase ;;
  salt <- liftR (hexToBuffer saltHex) ;;
  subtle_deriveKey
    {| kdf_name := CRYPTO_CONFIG.KDF_ALGORITHM;
       kdf_salt := salt;
       kdf_iterations := CRYPTO_CONFIG.ITERATIONS;
       kdf_hash := CRYPTO_CONFIG.HASH_ALGORITHM |}
    passwordKey
    {| alg_name := CRYPTO_CONFIG.ALGORITHM;
       alg_hash := None;
       alg_length := CRYPTO_CONFIG.KEY_LENGTH |}
    false
    ["decrypt"%string; "encrypt"%string].

(** The loop of [deriveHmacKey]: [hmacSalt[i] = salt[i] ^ 0x5c]. *)
Definition xorSaltLoop (salt : Uint8Array) : Uint8Array :=
  let hmacSalt := newUint8Array (List.length salt) in
  forRange (List.length salt) 0%nat
    (fun i hmacSalt => setIndex hmacSalt i (ToUint8 (N.lxor (getIndex salt i) 0x5c)))
    hmacSalt.

Definition deriveHmacKey (passphrase : string) (saltHex : string) : M CryptoKey :=
  passwordKey <- importPasswordKey passphrase ;;
  salt <- liftR (hexToBuffer saltHex) ;;
  let hmacSalt := xorSaltLoop salt in
  subtle_deriveKey
    {| kdf_name := CRYPTO_CONFIG.KDF_ALGORITHM;
       kdf_salt := hmacSalt;
       kdf_iterations := CRYPTO_CONFIG.ITERATIONS;
       kdf_hash := CRYPTO_CONFIG.HASH_ALGORITHM |}
    passwordKey
    {| alg_name := "HMAC";
       alg_hash := Some CRYPTO_CONFIG.HASH_ALGORITHM;
       alg_length := CRYPTO_CONFIG.KEY_LENGTH |}
    false
    ["sign"%string; "verify"%string].

(** The comparison loop of [verifyHmac]:
    [result |= signatureArray[i] ^ expectedHmac[i]] for every [i]. *)
Definition xorAccumulate (signatureArray expectedHmac : Uint8Array) : N :=
  forRange (List.length signatureArray) 0%nat
    (fun i result =>
       N.lor result (N.lxor (getIndex signatureArray i) (getIndex expectedHmac i)))
    0%N.

Definition verifyHmac (hmacKey : CryptoKey) (data : string)
    (expectedHmacHex : string) : M bool :=
  let dataBuffer := TextEncoder_encode data in
  expectedHmac <- liftR (hexToBuffer expectedHmacHex) ;;
  signatureArray <- sign hmacKey dataBuffer ;;
  if negb (Nat.eqb (List.length signatureArray) (List.length expectedHmac)) then
    ret false
  else
    let result := xorAccumulate signatureArray expectedHmac in
    ret (N.eqb result 0).

(** [binaryString.charCodeAt(i)]. *)
Definition charCodeAt (s : string) (i : nat) : N :=
  match String.get i s with
  | Some c => N_of_ascii c
  | None => 0%N
  end.

Definition base64ToBuffer (base64 : string) : Result Uint8Array :=
  match atob P base64 with
  | Throw e => Throw e
  | Ok binaryString =>
      let length := String.length binaryString in
      Ok (forRange length 0%nat
            (fun i buffer => setIndex buffer i (ToUint8 (charCodeAt binaryString i)))
            (newUint8Array length))
  end.

Definition decryptData (key : CryptoKey) (ivHex : string)
    (encryptedBase64 : string) : M string :=
  iv <- liftR (hexToBuffer ivHex) ;;
  encryptedData <- liftR (base64ToBuffer encryptedBase64) ;;
  decryptedBuffer <-
    decrypt {| gcm_name := CRYPTO_CONFIG.ALGORITHM;
               gcm_iv := iv;
               gcm_tagLength := CRYPTO_CONFIG.TAG_LENGTH |}
            key encryptedData ;;
  ret (TextDecoder_decode P decryptedBuffer).

(** [secureWipeBuffer(buffer)]; the result is the content of [buffer] when the
    call returns.  When [getRandomValues] throws, nothing has been written. *)
Definition secureWipeBuffer (buffer : Uint8Array) : M Uint8Array :=
  if (0 <? List.length buffer)%nat then
    buffer <- getRandomValues buffer ;;
    ret (fill0 buffer)
  else
    ret buffer.

(** ** security.ts: the [globalRateLimiter] singleton *)

Definition isLocked : M bool :=
  now <- DateNow ;;
  st <- getLimiter ;;
  ret (now <? lockedUntil st).

Definition getRemainingLockoutMs : M Z :=
  st <- getLimiter ;;
  now <- DateNow ;;
  let remaining := lockedUntil st - now in
  ret (if 0 <? remaining then remaining else 0).

Definition getAttempts : M Z :=
  st <- getLimiter ;;
  ret (attempts st).

(** The exponent is non-negative where the power is taken.  On IEEE doubles
    the product overflows to Infinity for huge exponents and [Math.min] then
    yields the cap, as the integer minimum does. *)
Definition recordAttempt : M unit :=
  updateLimiter (fun st =>
    {| attempts := attempts st + 1; lockedUntil := lockedUntil st;
       lastAttempt := lastAttempt st |}) ;;
  now <- DateNow ;;
  updateLimiter (fun st =>
    {| attempts := attempts st; lockedUntil := lockedUntil st;
       lastAttempt := now |}) ;;
  st <- getLimiter ;;
  if SECURITY_CONFIG.MAX_UNLOCK_ATTEMPTS <=? attempts st then
    let lockoutDuration :=
      Z.min
        (SECURITY_CONFIG.LOCKOUT_BASE_MS *
         SECURITY_CONFIG.LOCKOUT_MULTIPLIER ^
           (attempts st - SECURITY_CONFIG.MAX_UNLOCK_ATTEMPTS))
        SECURITY_CONFIG.MAX_LOCKOUT_MS in
    now <- DateNow ;;
    updateLimiter (fun st =>
      {| attempts := attempts st; lockedUntil := now + lockoutDuration;
         lastAttempt := lastAttempt st |})
  else
    ret tt.

Definition reset : M unit :=
  updateLimiter (fun _ => {| attempts := 0; lockedUntil := 0; lastAttempt := 0 |}).

(** ** authStore.ts *)

Definition getErrorMessage (error : AuthError) : string :=
  match error with
  | Some INVALID_PASSPHRASE => "Access denied"
  | Some RATE_LIMITED => "Too many attempts. Please wait."
  | Some INTEGRITY_FAILURE => "Vault integrity check failed"
  | Some VAULT_EMPTY => "No vault data available"
  | None => ""
  end.

(** [!vaultData.hmac]: the field is missing or is the empty string. *)
Definition hmacMissing (h : option string) : bool :=
  match h with
  | None => true
  | Some s => isEmptyString s
  end.

Definition verifyVaultIntegrity (passphrase : string) : M bool :=
  if hmacMissing (hmac vaultData) then
    ret true
  else
    hmacKey <- deriveHmacKey passphrase (salt vaultData) ;;
    let dataToVerify := JSON_stringify P (files vaultData) in
    verifyHmac hmacKey dataToVerify
      (match hmac vaultData with Some h => h | None => EmptyString end).

(** The [for (const file of vaultData.files)] loop of [unlock]; [decrypted] is
    the array built so far. *)
Fixpoint decryptLoop (key : CryptoKey) (files : list VaultFile.t)
    (decrypted : list DecryptedFile.t) : M (list DecryptedFile.t) :=
  match files with
  | [] => ret decrypted
  | file :: rest =>
      content <- decryptData key (VaultFile.iv file) (VaultFile.data file) ;;
      decryptLoop key rest
        (decrypted ++
           [{| DecryptedFile.id := VaultFile.id file;
               DecryptedFile.title := VaultFile.title file;
               DecryptedFile.priority := VaultFile.priority file;
               DecryptedFile.tags := VaultFile.tags file;
               DecryptedFile.content := content |}])
  end.

Definition updateLockoutTime : M unit :=
  remaining <- getRemainingLockoutMs ;;
  set (lockoutRemainingMs_ remaining).

(** [unlock(passphrase)], run to completion.  The early [return]s of the source
    are the branches that end without reaching the code after them. *)
Definition unlock (passphrase : string) : M unit :=
  locked <- isLocked ;;
  if locked then
    remaining <- getRemainingLockoutMs ;;
    set (fun s =>
      lockoutRemainingMs_ remaining
        (errorMessage_ (getErrorMessage (Some RATE_LIMITED))
           (error_ (Some RATE_LIMITED) s)))
  else
    set (fun s => errorMessage_ "" (error_ None (isDecrypting_ true s))) ;;
    tryCatch
      (let saltHex := salt vaultData in
       if isEmptyString saltHex || Nat.eqb (List.length (files vaultData)) 0 then
         set (fun s =>
           isDecrypting_ false
             (errorMessage_ (getErrorMessage (Some VAULT_EMPTY))
                (error_ (Some VAULT_EMPTY) s)))
       else
         integrityValid <- verifyVaultIntegrity passphrase ;;
         if negb integrityValid then
           recordAttempt ;;
           remaining <- getRemainingLockoutMs ;;
           set (fun s =>
             lockoutRemainingMs_ remaining
               (isDecrypting_ false
                  (errorMessage_ (getErrorMessage (Some INTEGRITY_FAILURE))
                     (error_ (Some INTEGRITY_FAILURE) s))))
         else
           key <- deriveKey passphrase saltHex ;;
           decrypted <- decryptLoop key (files vaultData) [] ;;
           reset ;;
           set (fun s =>
             errorMessage_ ""
               (error_ None
                  (isDecrypting_ false
                     (decryptedFiles_ decrypted
                        (masterKey_ (Some key) (isUnlocked_ true s)))))))
      (recordAttempt ;;
       remaining <- getRemainingLockoutMs ;;
       set (fun s =>
         lockoutRemainingMs_ remaining
           (masterKey_ None
              (isDecrypting_ false
                 (errorMessage_ (getErrorMessage (Some INVALID_PASSPHRASE))
                    (error_ (Some INVALID_PASSPHRASE) s)))))).

(** [(file as { content: string }).content = ''] on the [i]-th held document:
    the objects in [state.decryptedFiles] are the ones the store holds. *)
Definition clearContentAt (i : nat) : M unit :=
  set (fun s =>
    decryptedFiles_
      (firstn i (decryptedFiles s) ++
       match skipn i (decryptedFiles s) with
       | [] => []
       | file :: rest => DecryptedFile.set_content "" file :: rest
       end)
      s).

(** The [for (const file of state.decryptedFiles)] loop of [wipe], from the
    [i]-th document on. *)
Fixpoint wipeLoop (i : nat) (remaining : list DecryptedFile.t) : M unit :=
  match remaining with
  | [] => ret tt
  | file :: rest =>
      let contentBytes := TextEncoder_encode (DecryptedFile.content file) in
      secureWipeBuffer contentBytes ;;
      clearContentAt i ;;
      wipeLoop (Datatypes.S i) rest
  end.

(** [wipe()].  The trailing [window.gc] call is guarded by its own [try] and
    touches nothing modelled here. *)
Definition wipe : M unit :=
  state <- get ;;
  (if (0 <? List.length (decryptedFiles state))%nat then
     wipeLoop 0%nat (decryptedFiles state)
   else
     ret tt) ;;
  set (fun s =>
    isDecrypting_ false
      (errorMessage_ ""
         (error_ None
            (decryptedFiles_ [] (masterKey_ None (isUnlocked_ false s)))))).

(** ** UnlockScreen.tsx *)

(** [handleSubmit]: [passphrase] and [displayLockout] are the component's
    state, [isDecrypting] is read from the store; the result is the content
    of the passphrase field afterwards. *)
Definition handleSubmit (passphrase : string) (displayLockout : Z) : M string :=
  state <- get ;;
  if isEmptyString passphrase || isDecrypting state || (0 <? displayLockout) then
    ret passphrase
  else
    let passphraseValue := passphrase in
    unlock passphraseValue ;;
    ret EmptyString.

End Vault.

(** The store and the limiter as the modules create them. *)
Definition initialAuthState : AuthState :=
  {| isUnlocked := false; masterKey := None; decryptedFiles := [];
     error := None; errorMessage := ""; isDecrypting := false;
     lockoutRemainingMs := 0 |}.

Definition initialRateLimitState : RateLimitState :=
  {| attempts := 0; lockedUntil := 0; lastAttempt := 0 |}.

Definition initialWorld : World :=
  {| limiter := initialRateLimitState; store := initialAuthState;
     ticks := 0; drawn := 0; trace := [] |}.

(** ** An executable platform and sample vaults

    A small deterministic stand-in for the browser, on which the definitions
    above can be run: the "MAC" is a keyed checksum and the "cipher" prefixes
    the plaintext with a key-and-nonce dependent tag byte. *)

Module Demo.

Definition sumBytes (bs : list byte) : N :=
  fold_right (fun b acc => (Byte.to_N b + acc)%N) 0%N bs.

Fixpoint keyTag (k : CryptoKey) : N :=
  match k with
  | ImportedKey _ keyData _ _ _ => sumBytes keyData
  | DerivedKey params baseKey _ _ _ =>
      (sumBytes (kdf_salt params) + keyTag baseKey)%N
  end.

Definition platform : Platform :=
  {| Date_now := fun k => 1700000000000 + 1000 * Z.of_nat k;
     randomByte := fun k => ToUint8 (N.of_nat k * 167 + 13);
     subtle_sign := fun key data =>
       Ok [ToUint8 (keyTag key + sumBytes data);
           ToUint8 (N.of_nat (List.length data))];
     subtle_decrypt := fun params key data =>
       match data with
       | tag :: body =>
           if Byte.eqb tag (ToUint8 (keyTag key + sumBytes (gcm_iv params)))
           then Ok body
           else Throw OperationError
       | [] => Throw OperationError
       end;
     atob := fun s => Ok s;
     JSON_stringify := fun files =>
       String.concat ","
         (map (fun f =>
                 (VaultFile.id f ++ ":" ++ VaultFile.iv f ++ ":" ++
                  VaultFile.data f)%string)
              files);
     TextDecoder_decode := string_of_list_byte |}.

Definition passphrase : string := "Tr0ub4dor&3Long!".

Definition saltHex : string := "aaaaaaaaaaaaaaaaaaaaaaaaaaaaaaaa".

(** The encryption key derived from [passphrase] and [saltHex]. *)
Definition encryptionKey : CryptoKey :=
  DerivedKey
    {| kdf_name := "PBKDF2"; kdf_salt := repeat xaa 16;
       kdf_iterations := 600000; kdf_hash := "SHA-256" |}
    (ImportedKey "raw" (TextEncoder_encode passphrase) "PBKDF2" false
       ["deriveKey"%string])
    {| alg_name := "AES-GCM"; alg_hash := None; alg_length := 256 |}
    false ["decrypt"%string; "encrypt"%string].

(** The integrity key derived from [passphrase] and [saltHex]. *)
Definition integrityKey : CryptoKey :=
  DerivedKey
    {| kdf_name := "PBKDF2"; kdf_salt := repeat xf6 16;
       kdf_iterations := 600000; kdf_hash := "SHA-256" |}
    (ImportedKey "raw" (TextEncoder_encode passphrase) "PBKDF2" false
       ["deriveKey"%string])
    {| alg_name := "HMAC"; alg_hash := Some "SHA-256"%string;
       alg_length := 256 |}
    false ["sign"%string; "verify"%string].

(** One document, sealed for [passphrase] under the platform above. *)
Definition incidentResponse : VaultFile.t :=
  {| VaultFile.id := "doc-1";
     VaultFile.title := "Incident Response";
     VaultFile.priority := Some "critical"%string;
     VaultFile.tags := Some ["ir"%string];
     VaultFile.iv := "000102030405060708090a0b";
     VaultFile.data := "2# Incident Response" |}.

(** A second document whose payload does not authenticate. *)
Definition corrupted : VaultFile.t :=
  {| VaultFile.id := "doc-2";
     VaultFile.title := "Contacts";
     VaultFile.priority := None;
     VaultFile.tags := None;
     VaultFile.iv := "0b0a09080706050403020100";
     VaultFile.data := "?garbled" |}.

(** Authored for [passphrase]: the digest covers [incidentResponse]. *)
Definition vault : VaultManifest :=
  {| salt := saltHex; hmac := Some "da33"%string;
     generatedAt := "2024-01-01T00:00:00.000Z";
     files := [incidentResponse] |}.

(** The digest covers both documents, the second of which is corrupt. *)
Definition vaultCorruptDocument : VaultManifest :=
  {| salt := saltHex; hmac := Some "2f5b"%string;
     generatedAt := "2024-01-01T00:00:00.000Z";
     files := [incidentResponse; corrupted] |}.

(** [vault] with a digest that no longer matches. *)
Definition vaultTampered : VaultManifest :=
  {| salt := saltHex; hmac := Some "da34"%string;
     generatedAt := "2024-01-01T00:00:00.000Z";
     files := [incidentResponse] |}.

(** A manifest authored without a digest. *)
Definition vaultNoHmac : VaultManifest :=
  {| salt := saltHex; hmac := None;
     generatedAt := "2024-01-01T00:00:00.000Z";
     files := [incidentResponse] |}.

(** A manifest whose salt is not hexadecimal. *)
Definition vaultBadSalt : VaultManifest :=
  {| salt := "not-hex!"; hmac := Some "da33"%string;
     generatedAt := "2024-01-01T00:00:00.000Z";
     files := [incidentResponse] |}.

(** A manifest whose salt is one byte instead of sixteen. *)
Definition vaultShortSalt : VaultManifest :=
  {| salt := "aa"; hmac := None;
     generatedAt := "2024-01-01T00:00:00.000Z";
     files := [incidentResponse] |}.

End Demo.

(** ** Vocabulary of the statements *)

(** [w] after the platform calls [evs]. *)
Definition appendTrace (evs : list Event) (w : World) : World :=
  {| limiter := limiter w; store := store w; ticks := ticks w;
     drawn := drawn w; trace := trace w ++ evs |}.

(** What a computation returns, and the platform calls it makes, when these
    do not depend on the state it starts in (see [traceOnly]). *)
Definition outcome {A} (m : M A) : Result A := fst (m initialWorld).

Definition events {A} (m : M A) : list Event := trace (snd (m initialWorld)).

(** [m] neither reads nor writes the limiter, the store, the clock or the
    random source: it only computes, recording its platform calls. *)
Definition traceOnly {A} (m : M A) : Prop :=
  forall w, m w = (outcome m, appendTrace (events m) w).

(** [!saltHex || !vaultData.files || vaultData.files.length === 0]. *)
Definition vaultEmpty (vaultData : VaultManifest) : bool :=
  isEmptyString (salt vaultData) || Nat.eqb (List.length (files vaultData)) 0.

(** The limiter gate as [unlock] evaluates it in [w]. *)
Definition gateClosed (P : Platform) (w : World) : bool :=
  Date_now P (ticks w) <? lockedUntil (limiter w).

(** A held document for [file] with cleartext [content]. *)
Definition decryptedOf (file : VaultFile.t) (content : string) : DecryptedFile.t :=
  {| DecryptedFile.id := VaultFile.id file;
     DecryptedFile.title := VaultFile.title file;
     DecryptedFile.priority := VaultFile.priority file;
     DecryptedFile.tags := VaultFile.tags file;
     DecryptedFile.content := content |}.

(** The state [wipe] leaves the session in. *)
Definition cleared (s : AuthState) : Prop :=
  isUnlocked s = false /\ masterKey s = None /\ decryptedFiles s = [] /\
  error s = None /\ errorMessage s = EmptyString /\ isDecrypting s = false.

(** Every held document is small enough for one [getRandomValues] call. *)
Definition withinQuota (s : AuthState) : Prop :=
  Forall
    (fun file =>
       Z.of_nat (List.length (TextEncoder_encode (DecryptedFile.content file)))
       <= 65536)
    (decryptedFiles s).

(** [mask] has every bit of [x] set. *)
Definition covers (mask x : N) : Prop := N.land mask x = x.

(** All fields but the held documents agree. *)
Definition sameButFiles (s s' : AuthState) : Prop :=
  isUnlocked s' = isUnlocked s /\ masterKey s' = masterKey s /\
  error s' = error s /\ errorMessage s' = errorMessage s /\
  isDecrypting s' = isDecrypting s /\
  lockoutRemainingMs s' = lockoutRemainingMs s.

(** The limiter of [w] replaced by [l]. *)
Definition withLimiter (l : RateLimitState) (w : World) : World :=
  {| limiter := l; store := store w; ticks := ticks w; drawn := drawn w;
     trace := trace w |}.

(** The store of [w] replaced by [s]. *)
Definition withStore (s : AuthState) (w : World) : World :=
  {| limiter := limiter w; store := s; ticks := ticks w; drawn := drawn w;
     trace := trace w |}.

(** [w] after one more read of the clock. *)
Definition tick (w : World) : World :=
  {| limiter := limiter w; store := store w; ticks := Datatypes.S (ticks w);
     drawn := drawn w; trace := trace w |}.

(** [w] with the limiter replaced and [k] more reads of the clock. *)
Definition limiterStep (l : RateLimitState) (k : nat) (w : World) : World :=
  {| limiter := l; store := store w; ticks := (k + ticks w)%nat;
     drawn := drawn w; trace := trace w |}.

(** The session fields [unlock] sets before entering its [try] block. *)
Definition started (s : AuthState) : AuthState :=
  errorMessage_ "" (error_ None (isDecrypting_ true s)).

(** [w] after the failure path of [unlock] for the error [code]:
    [recordAttempt()], then [set] with the remaining lockout. [dropKey] tells
    whether the patch also resets [masterKey] (the [catch] block does). *)
Definition rejected (P : Platform) (code : AuthErrorCode) (dropKey : bool)
    (w : World) : World :=
  let w1 := snd (recordAttempt P w) in
  let remaining := Z.max 0 (lockedUntil (limiter w1) - Date_now P (ticks w1)) in
  let s := isDecrypting_ false
             (errorMessage_ (getErrorMessage (Some code))
                (error_ (Some code) (store w1))) in
  {| limiter := limiter w1;
     store := lockoutRemainingMs_ remaining (if dropKey then masterKey_ None s else s);
     ticks := Datatypes.S (ticks w1); drawn := drawn w1; trace := trace w1 |}.

(** [w] after the success path of [unlock]. *)
Definition accepted (key : CryptoKey) (decrypted : list DecryptedFile.t)
    (w : World) : World :=
  {| limiter := {| attempts := 0; lockedUntil := 0; lastAttempt := 0 |};
     store :=
       errorMessage_ ""
         (error_ None
            (isDecrypting_ false
               (decryptedFiles_ decrypted
                  (masterKey_ (Some key) (isUnlocked_ true (store w))))));
     ticks := ticks w; drawn := drawn w; trace := trace w |}.

(** [w] once [unlock] has passed the gate and set [isDecrypting]. *)
Definition entered (w : World) : World :=
  {| limiter := limiter w; store := started (store w);
     ticks := Datatypes.S (ticks w); drawn := drawn w; trace := trace w |}.

(** [w'] is [w] after one recorded failure reported as [code]: the count went
    up by one, the error and its message are set, the session is otherwise
    as it was. *)
Definition penalised (code : AuthErrorCode) (w w' : World) : Prop :=
  attempts (limiter w') = attempts (limiter w) + 1 /\
  error (store w') = Some code /\
  errorMessage (store w') = getErrorMessage (Some code) /\
  isDecrypting (store w') = false /\
  isUnlocked (store w') = isUnlocked (store w) /\
  decryptedFiles (store w') = decryptedFiles (store w).

(** Whether the attempt goes all the way: gate open, manifest populated,
    integrity confirmed, key derived, every document decrypted. *)
Definition succeeds (P : Platform) (vaultData : VaultManifest)
    (passphrase : string) (w : World) : bool :=
  negb (gateClosed P w) && negb (vaultEmpty vaultData) &&
  match outcome (verifyVaultIntegrity P vaultData passphrase) with
  | Ok true =>
      match outcome (deriveKey passphrase (salt vaultData)) with
      | Ok key => isOk (outcome (decryptLoop P key (files vaultData) []))
      | Throw _ => false
      end
  | _ => false
  end.

(** ** Sample sessions *)

(** A buffer of 65537 bytes, each 0x41. *)
Definition overQuotaBuffer : Uint8Array := repeat x41 (Z.to_nat 65537).

(** The session after [Demo.passphrase] unlocked [Demo.vault]. *)
Definition unlockedWorld : World :=
  snd (unlock Demo.platform Demo.vault Demo.passphrase initialWorld).

(** The session after a wrong passphrase was tried on [Demo.vaultNoHmac]. *)
Definition rejectedWorld : World :=
  snd (unlock Demo.platform Demo.vaultNoHmac "wrong" initialWorld).

(** An unlocked session holding a document of 65537 bytes. *)
Definition oversizedWorld : World :=
  {| limiter := initialRateLimitState;
     store :=
       {| isUnlocked := true; masterKey := None;
          decryptedFiles :=
            [{| DecryptedFile.id := "doc-1"; DecryptedFile.title := "Runbook";
                DecryptedFile.priority := None; DecryptedFile.tags := None;
                DecryptedFile.content := "restart the service" |};
             {| DecryptedFile.id := "doc-2"; DecryptedFile.title := "Dump";
                DecryptedFile.priority := None; DecryptedFile.tags := None;
                DecryptedFile.content := string_of_list_byte overQuotaBuffer |}];
          error := None; errorMessage := ""; isDecrypting := false;
          lockoutRemainingMs := 0 |};
     ticks := 0; drawn := 0; trace := [] |}.

(** [k] rejected attempts in a row on a fresh limiter. *)
Definition afterFailures (k : nat) : World :=
  forRange k 0%nat (fun _ w => snd (recordAttempt Demo.platform w)) initialWorld.

(** The session after the right passphrase met the tampered manifest. *)
Definition tamperedWorld : World :=
  snd (unlock Demo.platform Demo.vaultTampered Demo.passphrase initialWorld).

(** The session after the right passphrase met a corrupt document. *)
Definition corruptWorld : World :=
  snd (unlock Demo.platform Demo.vaultCorruptDocument Demo.passphrase initialWorld).

(** A locked session with an unlock attempt outstanding. *)
Definition inFlightWorld : World :=
  {| limiter := initialRateLimitState;
     store := isDecrypting_ true initialAuthState;
     ticks := 0; drawn := 0; trace := [] |}.

(** ** security.ts: text helpers

    These functions index strings by UTF-16 code unit ([slice], [length],
    [charCodeAt], character classes), so here a string is the list of its
    code units. *)

Definition CodeUnits : Type := list N.

(** The code units of an ASCII literal. *)
Definition lit (s : string) : CodeUnits :=
  map N_of_ascii (list_ascii_of_string s).

(** [s.replace(/c/g, r)] for a one-character pattern [c] and a replacement
    without [$] patterns. *)
Definition replaceAll (c : N) (r : CodeUnits) (s : CodeUnits) : CodeUnits :=
  flat_map (fun x => if N.eqb x c then r else [x]) s.

(** [sanitizeText] (security.ts); 34 is the double quote, 39 the apostrophe. *)
Definition sanitizeText (input : CodeUnits) : CodeUnits :=
  replaceAll 39 (lit "&#x27;")
    (replaceAll 34 (lit "&quot;")
       (replaceAll 62 (lit "&gt;")
          (replaceAll 60 (lit "&lt;")
             (replaceAll 38 (lit "&amp;") input)))).

(** [\w]: ASCII letters, digits and the underscore. *)
Definition isWordChar (c : N) : bool :=
  ((48 <=? c) && (c <=? 57) || (65 <=? c) && (c <=? 90) ||
   (97 <=? c) && (c <=? 122) || (c =? 95))%N.

(** [\s]: the white space and line terminator code units of ECMAScript. *)
Definition isSpaceChar (c : N) : bool :=
  ((9 <=? c) && (c <=? 13) || (c =? 32) || (c =? 160) || (c =? 5760) ||
   (8192 <=? c) && (c <=? 8202) || (c =? 8232) || (c =? 8233) ||
   (c =? 8239) || (c =? 8287) || (c =? 12288) || (c =? 65279))%N.

(** The class [[\w\s\-_.]]. *)
Definition isSearchChar (c : N) : bool :=
  (isWordChar c || isSpaceChar c || (c =? 45) || (c =? 95) || (c =? 46))%N.

(** [validateSearchInput] (security.ts):
    [input.slice(0, 100).replace(/[^\w\s\-_.]/g, '')]. *)
Definition validateSearchInput (input : CodeUnits) : CodeUnits :=
  filter isSearchChar (firstn 100 input).

(** [s.charCodeAt(i)] inside the bounds of [s]. *)
Definition codeUnitAt (s : CodeUnits) (i : nat) : N := nth i s 0%N.

(** [secureCompare] (security.ts). *)
Definition secureCompare (a b : CodeUnits) : bool :=
  if negb (Nat.eqb (List.length a) (List.length b)) then false
  else
    let result :=
      forRange (List.length a) 0%nat
        (fun i result => N.lor result (N.lxor (codeUnitAt a i) (codeUnitAt b i)))
        0%N in
    N.eqb result 0.

(** The function returned by [createWipeHandler(wipeCallback)]: it never
    throws; the boolean tells whether [window.location.reload()] was called. *)
Definition createWipeHandler (wipeCallback : M unit) : World -> bool * World :=
  fun w =>
    match wipeCallback w with
    | (Ok _, w') => (false, w')
    | (Throw _, w') => (true, w')
    end.

(** ** Dashboard.tsx *)

(** [f.priority === p]. *)
Definition priorityIs (p : string) (f : DecryptedFile.t) : bool :=
  match DecryptedFile.priority f with
  | Some q => String.eqb q p
  | None => false
  end.

(** [!f.priority]: missing or empty. *)
Definition priorityMissing (f : DecryptedFile.t) : bool :=
  match DecryptedFile.priority f with
  | Some q => isEmptyString q
  | None => true
  end.

Definition criticalFiles (decryptedFiles : list DecryptedFile.t) : list DecryptedFile.t :=
  filter (priorityIs "critical") decryptedFiles.

Definition highFiles (decryptedFiles : list DecryptedFile.t) : list DecryptedFile.t :=
  filter (priorityIs "high") decryptedFiles.

Definition normalFiles (decryptedFiles : list DecryptedFile.t) : list DecryptedFile.t :=
  filter (fun f => priorityIs "normal" f || priorityMissing f) decryptedFiles.

(** [new Set(values)] followed by [Array.from]: the distinct values in the
    order of their first occurrence; [seen] is the set built so far. *)
Fixpoint setFrom (values : list string) (seen : list string) : list string :=
  match values with
  | [] => seen
  | v :: rest =>
      setFrom rest (if existsb (String.eqb v) seen then seen else seen ++ [v])
  end.

(** [f.tags || []]. *)
Definition tagsOf (f : DecryptedFile.t) : list string :=
  match DecryptedFile.tags f with
  | Some ts => ts
  | None => []
  end.

Definition allTags (decryptedFiles : list DecryptedFile.t) : list string :=
  firstn 10 (setFrom (flat_map tagsOf decryptedFiles) []).

(** ** The authoring script (README.md) *)

(** One lower-case hexadecimal digit. *)
Definition hexDigitChar (d : N) : ascii :=
  if (d <? 10)%N then ascii_of_N (48 + d) else ascii_of_N (87 + d).

(** [bufferToHex]: [Buffer.from(buffer).toString('hex')], two lower-case
    digits per byte. *)
Fixpoint bufferToHex (buffer : Uint8Array) : string :=
  match buffer with
  | [] => EmptyString
  | b :: rest =>
      String (hexDigitChar (Byte.to_N b / 16))
        (String (hexDigitChar (Byte.to_N b mod 16)) (bufferToHex rest))
  end.

(** ** Sessions as sequences of user-level operations *)

(** What the components do to the page state: the store's operations, the
    unlock form's submit handler and the countdown's poll of the limiter. *)
Inductive Action : Type :=
| ActUnlock (passphrase : string)
| ActWipe
| ActUpdateLockoutTime
| ActPollLockout
| ActSubmit (passphrase : string) (displayLockout : Z).

(** The state after one operation; an exception escaping [wipe] leaves the
    state as it was when it was thrown. *)
Definition perform (P : Platform) (vaultData : VaultManifest) (a : Action)
    (w : World) : World :=
  match a with
  | ActUnlock passphrase => snd (unlock P vaultData passphrase w)
  | ActWipe => snd (wipe P w)
  | ActUpdateLockoutTime => snd (updateLockoutTime P w)
  | ActPollLockout => snd (getRemainingLockoutMs P w)
  | ActSubmit passphrase displayLockout =>
      snd (handleSubmit P vaultData passphrase displayLockout w)
  end.

Definition run (P : Platform) (vaultData : VaultManifest) (actions : list Action)
    (w : World) : World :=
  fold_left (fun w a => perform P vaultData a w) actions w.

(** What holds of the limiter in every state the page reaches: the count is
    not negative, no deadline is set below five failures, and a deadline is
    at most 300 s after some earlier reading of the clock. *)
Definition limiterInv (P : Platform) (w : World) : Prop :=
  0 <= attempts (limiter w) /\
  (attempts (limiter w) < 5 -> lockedUntil (limiter w) = 0) /\
  (lockedUntil (limiter w) = 0 \/
   exists k, (k < ticks w)%nat /\
             lockedUntil (limiter w) <= Date_now P k + 300000).

(** What holds of the session in every state the page reaches: a locked
    session holds neither documents nor a key. *)
Definition sessionInv (w : World) : Prop :=
  isUnlocked (store w) = false ->
  decryptedFiles (store w) = [] /\ masterKey (store w) = None.

(** ** The integrity key, spelled out *)

(** The PBKDF2 parameters [deriveHmacKey] passes for the decoded [salt]. *)
Definition integrityParams (salt : Uint8Array) : Pbkdf2Params :=
  {| kdf_name := "PBKDF2"; kdf_salt := xorSaltLoop salt;
     kdf_iterations := 600000; kdf_hash := "SHA-256" |}.

Definition integrityAlgorithm : DerivedKeyAlgorithm :=
  {| alg_name := "HMAC"; alg_hash := Some "SHA-256"%string; alg_length := 256 |}.

(** The key [deriveHmacKey] returns for [passphrase] and the decoded [salt]. *)
Definition integrityKeyOf (passphrase : string) (salt : Uint8Array) : CryptoKey :=
  DerivedKey (integrityParams salt)
    (ImportedKey "raw" (TextEncoder_encode passphrase) "PBKDF2" false
       ["deriveKey"%string])
    integrityAlgorithm false ["sign"%string; "verify"%string].

(** ** Vocabulary for the text helpers and the dashboard *)

(** What [sanitizeText] makes of one code unit. *)
Definition escapeChar (c : N) : CodeUnits :=
  if (c =? 38)%N then lit "&amp;"
  else if (c =? 60)%N then lit "&lt;"
  else if (c =? 62)%N then lit "&gt;"
  else if (c =? 34)%N then lit "&quot;"
  else if (c =? 39)%N then lit "&#x27;"
  else [c].

(** The less-than sign, the greater-than sign and the two quotes. *)
Definition isMarkup (c : N) : bool :=
  ((c =? 60) || (c =? 62) || (c =? 34) || (c =? 39))%N.

(** The five characters [sanitizeText] rewrites. *)
Definition needsEscape (c : N) : bool := ((c =? 38) || isMarkup c)%N.

(** The documents the dashboard lists in one of its three sections. *)
Definition listed (f : DecryptedFile.t) : bool :=
  priorityIs "critical" f || priorityIs "high" f || priorityIs "normal" f
  || priorityMissing f.

(** * Properties *)

(** ** Typed-array loops *)

Lemma setIndex_app (pre : Uint8Array) (x : byte) (rest : Uint8Array) (v : byte) :
  setIndex (pre ++ x :: rest) (List.length pre) v = pre ++ v :: rest.
Proof.
  induction pre as [|b pre IH]; simpl; [reflexivity|].
  now rewrite IH.
Qed.

(** A loop that stores [f i] at every index [i] in turn, started on a buffer
    whose first [i] slots are already final. *)
Lemma forRange_store (f : nat -> byte) (count : nat) :
  forall (pre rest : Uint8Array),
    List.length rest = count ->
    forRange count (List.length pre) (fun i buffer => setIndex buffer i (f i))
      (pre ++ rest)
    = pre ++ map f (seq (List.length pre) count).
Proof.
  induction count as [|k IH]; intros pre rest Hlen.
  - destruct rest; [reflexivity | discriminate].
  - destruct rest as [|x rest]; [discriminate|].
    simpl. rewrite setIndex_app.
    change (pre ++ f (List.length pre) :: rest)
      with (pre ++ [f (List.length pre)] ++ rest).
    rewrite app_assoc.
    replace (Datatypes.S (List.length pre))
      with (List.length (pre ++ [f (List.length pre)]))
      by (rewrite length_app; simpl; lia).
    rewrite IH by (simpl in Hlen; lia).
    rewrite <- app_assoc. reflexivity.
Qed.

Lemma forRange_store_all (f : nat -> byte) (n : nat) :
  forRange n 0%nat (fun i buffer => setIndex buffer i (f i)) (newUint8Array n)
  = map f (seq 0 n).
Proof.
  apply (forRange_store f n [] (newUint8Array n)).
  apply repeat_length.
Qed.

Lemma map_seq_nth {A B} (g : A -> B) (d : A) (l : list A) :
  map (fun i => g (nth i l d)) (seq 0 (List.length l)) = map g l.
Proof.
  induction l as [|a l IH]; simpl; [reflexivity|].
  f_equal. rewrite <- seq_shift, map_map. exact IH.
Qed.

Lemma nth_map_in_range {A B} (f : A -> B) (d : A) (d' : B) (l : list A) :
  forall i, (i < List.length l)%nat -> nth i (map f l) d' = f (nth i l d).
Proof.
  induction l as [|a l IH]; intros i Hi; simpl in *; [lia|].
  destruct i; [reflexivity | apply IH; lia].
Qed.

Lemma to_N_ToUint8 (n : N) : (n < 256)%N -> Byte.to_N (ToUint8 n) = n.
Proof.
  intros H. unfold ToUint8. rewrite N.mod_small by exact H.
  destruct (Byte.of_N n) as [b|] eqn:E.
  - now apply Byte.to_of_N.
  - apply Byte.of_N_None_iff in E. lia.
Qed.

Lemma to_N_lt_256 (b : byte) : (Byte.to_N b < 256)%N.
Proof. pose proof (Byte.to_N_bounded b). lia. Qed.

Lemma to_N_inj (a b : byte) : Byte.to_N a = Byte.to_N b -> a = b.
Proof.
  intros H. pose proof (Byte.of_to_N a) as Ha. pose proof (Byte.of_to_N b) as Hb.
  rewrite H in Ha. congruence.
Qed.

Lemma xor_byte_lt_256 (a b : N) : (a < 256)%N -> (b < 256)%N -> (N.lxor a b < 256)%N.
Proof.
  intros Ha Hb.
  destruct (N.eq_dec (N.lxor a b) 0) as [E|E]; [rewrite E; lia|].
  change 256%N with (2 ^ 8)%N. apply N.log2_lt_pow2; [lia|].
  eapply N.le_lt_trans; [apply N.log2_lxor|].
  apply N.max_lub_lt.
  - destruct (N.eq_dec a 0) as [->|Na]; [reflexivity|].
    apply N.log2_lt_pow2; [lia | exact Ha].
  - destruct (N.eq_dec b 0) as [->|Nb]; [reflexivity|].
    apply N.log2_lt_pow2; [lia | exact Hb].
Qed.

(** The salt loop of [deriveHmacKey] is the bytewise XOR with 0x5C. *)
Lemma xorSaltLoop_map (salt : Uint8Array) :
  xorSaltLoop salt
  = map (fun b => ToUint8 (N.lxor (Byte.to_N b) 0x5c)) salt.
Proof.
  unfold xorSaltLoop.
  rewrite (forRange_store_all
             (fun i => ToUint8 (N.lxor (getIndex salt i) 0x5c))).
  unfold getIndex.
  apply (map_seq_nth (fun b => ToUint8 (N.lxor (Byte.to_N b) 0x5c)) x00 salt).
Qed.

Example hexToBuffer_samples :
  hexToBuffer "aA5c00" = Ok [xaa; x5c; x00]
  /\ hexToBuffer "" = Ok []
  /\ hexToBuffer "abc" = Throw InvalidHexString
  /\ hexToBuffer "0g" = Throw InvalidHexString.
Proof. repeat split. Qed.

(** ** Key derivation *)

(** C9.  For every passphrase and every salt string that decodes to the bytes
    [salt]: [deriveKey] and [deriveHmacKey] both run PBKDF2 with SHA-256 and
    600000 iterations on the key imported from the same passphrase bytes and
    produce 256-bit keys (AES-GCM and HMAC-SHA-256 respectively); the
    encryption key is derived under [salt] itself and the integrity key under
    the salt of the same length whose every byte is the corresponding byte of
    [salt] XOR 0x5C. *)
Theorem derive_keys_share_passphrase_and_xor_salt
    (passphrase saltHex : string) (salt : Uint8Array) (w : World) :
  hexToBuffer saltHex = Ok salt ->
  let passwordKey :=
    ImportedKey "raw" (TextEncoder_encode passphrase) "PBKDF2" false
      ["deriveKey"%string] in
  let hmacSalt := map (fun b => ToUint8 (N.lxor (Byte.to_N b) 0x5c)) salt in
  let pbkdf2 (s : Uint8Array) :=
    {| kdf_name := "PBKDF2"; kdf_salt := s; kdf_iterations := 600000;
       kdf_hash := "SHA-256" |} in
  let aes := {| alg_name := "AES-GCM"; alg_hash := None; alg_length := 256 |} in
  let mac :=
    {| alg_name := "HMAC"; alg_hash := Some "SHA-256"%string;
       alg_length := 256 |} in
  deriveKey passphrase saltHex w
  = (Ok (DerivedKey (pbkdf2 salt) passwordKey aes false
           ["decrypt"%string; "encrypt"%string]),
     appendTrace [EvDeriveKey (pbkdf2 salt) aes] w)
  /\ deriveHmacKey passphrase saltHex w
     = (Ok (DerivedKey (pbkdf2 hmacSalt) passwordKey mac false
              ["sign"%string; "verify"%string]),
        appendTrace [EvDeriveKey (pbkdf2 hmacSalt) mac] w)
  /\ List.length hmacSalt = List.length salt
  /\ forall i, (i < List.length salt)%nat ->
       Byte.to_N (nth i hmacSalt x00)
       = N.lxor (Byte.to_N (nth i salt x00)) 0x5c.
Proof.
  intros Hsalt passwordKey hmacSalt pbkdf2 aes mac.
  repeat split.
  - unfold deriveKey, importPasswordKey, subtle_importKey, subtle_deriveKey,
      bind, liftR, emit, ret.
    rewrite Hsalt. reflexivity.
  - unfold deriveHmacKey, importPasswordKey, subtle_importKey, subtle_deriveKey,
      bind, liftR, emit, ret.
    rewrite Hsalt, xorSaltLoop_map. reflexivity.
  - apply length_map.
  - intros i Hi. subst hmacSalt.
    rewrite (nth_map_in_range _ x00 x00) by exact Hi.
    apply to_N_ToUint8. apply xor_byte_lt_256; [apply to_N_lt_256 | lia].
Qed.

Lemma derive_keys_share_passphrase_and_xor_salt_witness :
  hexToBuffer Demo.saltHex = Ok (repeat xaa 16)
  /\ deriveKey Demo.passphrase Demo.saltHex initialWorld
     = (Ok Demo.encryptionKey,
        appendTrace
          [EvDeriveKey
             {| kdf_name := "PBKDF2"; kdf_salt := repeat xaa 16;
                kdf_iterations := 600000; kdf_hash := "SHA-256" |}
             {| alg_name := "AES-GCM"; alg_hash := None; alg_length := 256 |}]
          initialWorld)
  /\ deriveHmacKey Demo.passphrase Demo.saltHex initialWorld
     = (Ok Demo.integrityKey,
        appendTrace
          [EvDeriveKey
             {| kdf_name := "PBKDF2"; kdf_salt := repeat xf6 16;
                kdf_iterations := 600000; kdf_hash := "SHA-256" |}
             {| alg_name := "HMAC"; alg_hash := Some "SHA-256"%string;
                alg_length := 256 |}]
          initialWorld).
Proof.
  split; [reflexivity|].
  destruct (derive_keys_share_passphrase_and_xor_salt Demo.passphrase
              Demo.saltHex (repeat xaa 16) initialWorld eq_refl)
    as (Henc & Hmac & _).
  split; [exact Henc | exact Hmac].
Defined.

(** ** Integrity check *)

Lemma covers_lor_inv (mask x y : N) :
  covers mask (N.lor x y) -> covers mask x /\ covers mask y.
Proof.
  unfold covers. intros H.
  split; apply N.bits_inj_iff; intros n;
    apply (f_equal (fun v => N.testbit v n)) in H;
    rewrite N.land_spec, N.lor_spec in H; rewrite N.land_spec;
    destruct (N.testbit mask n), (N.testbit x n), (N.testbit y n);
    simpl in *; congruence.
Qed.

Section Accumulate.

Variables signatureArray expectedHmac : Uint8Array.

(** The accumulator ends at zero exactly when it started at zero and every
    visited pair of bytes agrees. *)
Lemma accumulate_zero_iff (count : nat) :
  forall i result,
    forRange count i
      (fun i result =>
         N.lor result
           (N.lxor (getIndex signatureArray i) (getIndex expectedHmac i)))
      result = 0%N <->
    result = 0%N /\
    forall j, (i <= j < i + count)%nat ->
      getIndex signatureArray j = getIndex expectedHmac j.
Proof.
  induction count as [|k IH]; intros i result; simpl.
  - split; [intros H; split; [exact H | intros j Hj; lia] | intros [H _]; exact H].
  - rewrite IH. rewrite N.lor_eq_0_iff, N.lxor_eq_0_iff.
    split.
    + intros [[Hr Hi] Hrest]. split; [exact Hr|].
      intros j Hj. destruct (Nat.eq_dec j i) as [->|Hne]; [exact Hi|].
      apply Hrest. lia.
    + intros [Hr Hall].
      split; [split; [exact Hr | apply Hall; lia] |].
      intros j Hj. apply Hall. lia.
Qed.

(** Nothing folded into the accumulator is ever dropped, and every visited
    index is folded in. *)
Lemma accumulate_covers (count : nat) :
  forall i result,
    covers
      (forRange count i
         (fun i result =>
            N.lor result
              (N.lxor (getIndex signatureArray i) (getIndex expectedHmac i)))
         result)
      result /\
    forall j, (i <= j < i + count)%nat ->
      covers
        (forRange count i
           (fun i result =>
              N.lor result
                (N.lxor (getIndex signatureArray i) (getIndex expectedHmac i)))
           result)
        (N.lxor (getIndex signatureArray j) (getIndex expectedHmac j)).
Proof.
  induction count as [|k IH]; intros i result; simpl.
  - split; [apply N.land_diag | intros j Hj; lia].
  - destruct (IH (Datatypes.S i)
                (N.lor result
                   (N.lxor (getIndex signatureArray i) (getIndex expectedHmac i))))
      as [Hkeep Hrest].
    apply covers_lor_inv in Hkeep. destruct Hkeep as [Hold Hnew].
    split; [exact Hold|].
    intros j Hj. destruct (Nat.eq_dec j i) as [->|Hne]; [exact Hnew|].
    apply Hrest. lia.
Qed.

End Accumulate.

Lemma xorAccumulate_zero_iff (signatureArray expectedHmac : Uint8Array) :
  List.length signatureArray = List.length expectedHmac ->
  (xorAccumulate signatureArray expectedHmac = 0%N <->
   signatureArray = expectedHmac).
Proof.
  intros Hlen. unfold xorAccumulate.
  rewrite (accumulate_zero_iff signatureArray expectedHmac).
  split.
  - intros [_ Hall].
    apply (nth_ext _ _ x00 x00 Hlen). intros j Hj.
    apply to_N_inj. apply Hall. lia.
  - intros ->. split; [reflexivity | intros; reflexivity].
Qed.

(** What [verifyHmac] computes once the digest is signed and the expected
    digest decoded. *)
Lemma verifyHmac_run (P : Platform) (hmacKey : CryptoKey)
    (data expectedHmacHex : string) (w : World) :
  verifyHmac P hmacKey data expectedHmacHex w
  = match hexToBuffer expectedHmacHex with
    | Throw e => (Throw e, w)
    | Ok expectedHmac =>
        match subtle_sign P hmacKey (TextEncoder_encode data) with
        | Throw e => (Throw e, appendTrace [EvSign hmacKey] w)
        | Ok signatureArray =>
            (Ok (if Nat.eqb (List.length signatureArray) (List.length expectedHmac)
                 then N.eqb (xorAccumulate signatureArray expectedHmac) 0
                 else false),
             appendTrace [EvSign hmacKey] w)
        end
    end.
Proof.
  unfold verifyHmac, sign, bind, liftR, emit, ret.
  destruct (hexToBuffer expectedHmacHex) as [expectedHmac|e]; [|reflexivity].
  destruct (subtle_sign P hmacKey (TextEncoder_encode data))
    as [signatureArray|e]; [|reflexivity].
  destruct (Nat.eqb (List.length signatureArray) (List.length expectedHmac));
    reflexivity.
Qed.

(** C8.  [verifyHmac] returns [true] exactly when the HMAC computed over the
    encoded data has the length of the decoded expected digest and the same
    bytes.  The verdict is the length test followed by the XOR-accumulate
    over every index: the accumulator holds the bits of every byte
    difference, none is skipped.  When the manifest has no [hmac] field,
    [verifyVaultIntegrity] answers [true] without any platform call. *)
Theorem verifyHmac_length_then_xor_accumulate (P : Platform)
    (hmacKey : CryptoKey) (data expectedHmacHex : string) (w : World) :
  ((exists w', verifyHmac P hmacKey data expectedHmacHex w = (Ok true, w')) <->
   (exists signatureArray expectedHmac,
      subtle_sign P hmacKey (TextEncoder_encode data) = Ok signatureArray /\
      hexToBuffer expectedHmacHex = Ok expectedHmac /\
      List.length signatureArray = List.length expectedHmac /\
      signatureArray = expectedHmac))
  /\ (forall signatureArray expectedHmac,
        subtle_sign P hmacKey (TextEncoder_encode data) = Ok signatureArray ->
        hexToBuffer expectedHmacHex = Ok expectedHmac ->
        verifyHmac P hmacKey data expectedHmacHex w
        = (Ok (if Nat.eqb (List.length signatureArray) (List.length expectedHmac)
               then N.eqb (xorAccumulate signatureArray expectedHmac) 0
               else false),
           appendTrace [EvSign hmacKey] w)
        /\ forall i, (i < List.length signatureArray)%nat ->
             covers (xorAccumulate signatureArray expectedHmac)
               (N.lxor (getIndex signatureArray i) (getIndex expectedHmac i)))
  /\ (forall vaultData passphrase,
        hmac vaultData = None ->
        verifyVaultIntegrity P vaultData passphrase w = (Ok true, w)).
Proof.
  split; [|split].
  - rewrite verifyHmac_run. split.
    + intros [w' H].
      destruct (hexToBuffer expectedHmacHex) as [expectedHmac|e];
        [|discriminate].
      destruct (subtle_sign P hmacKey (TextEncoder_encode data))
        as [signatureArray|e]; [|discriminate].
      destruct (Nat.eqb (List.length signatureArray) (List.length expectedHmac))
        eqn:Hlen; [|discriminate].
      apply Nat.eqb_eq in Hlen.
      exists signatureArray, expectedHmac. repeat split; try assumption.
      apply (xorAccumulate_zero_iff _ _ Hlen). apply N.eqb_eq. congruence.
    + intros (signatureArray & expectedHmac & Hsig & Hexp & Hlen & Heq).
      rewrite Hexp, Hsig. subst expectedHmac. rewrite Nat.eqb_refl.
      rewrite (proj2 (xorAccumulate_zero_iff signatureArray signatureArray eq_refl)
                 eq_refl).
      eexists. reflexivity.
  - intros signatureArray expectedHmac Hsig Hexp. split.
    + rewrite verifyHmac_run, Hexp, Hsig. reflexivity.
    + intros i Hi. unfold xorAccumulate.
      apply (accumulate_covers signatureArray expectedHmac). lia.
  - intros vaultData passphrase Hnone.
    unfold verifyVaultIntegrity. rewrite Hnone. reflexivity.
Qed.

Lemma verifyHmac_length_then_xor_accumulate_witness :
  (exists w',
     verifyHmac Demo.platform Demo.integrityKey
       (JSON_stringify Demo.platform (files Demo.vault)) "da33" initialWorld
     = (Ok true, w'))
  /\ verifyVaultIntegrity Demo.platform Demo.vaultNoHmac Demo.passphrase
       initialWorld
     = (Ok true, initialWorld).
Proof.
  destruct (verifyHmac_length_then_xor_accumulate Demo.platform
              Demo.integrityKey
              (JSON_stringify Demo.platform (files Demo.vault)) "da33"
              initialWorld)
    as (Hiff & _ & Hmissing).
  split.
  - apply (proj2 Hiff). exists [xda; x33], [xda; x33].
    repeat split; reflexivity.
  - exact (Hmissing Demo.vaultNoHmac Demo.passphrase eq_refl).
Defined.

Example verifyVaultIntegrity_demo :
  outcome (verifyVaultIntegrity Demo.platform Demo.vault Demo.passphrase) = Ok true
  /\ outcome (verifyVaultIntegrity Demo.platform Demo.vaultTampered Demo.passphrase)
     = Ok false
  /\ outcome (verifyVaultIntegrity Demo.platform Demo.vault "wrong") = Ok false.
Proof. repeat split. Qed.

(** ** Wiping *)

Lemma fill0_zero (buffer : Uint8Array) :
  fill0 buffer = repeat x00 (List.length buffer).
Proof.
  induction buffer as [|b buffer IH]; simpl; [reflexivity | now rewrite IH].
Qed.

(** Within the quota [secureWipeBuffer] returns, after one random overwrite
    of the whole buffer, with every byte zero. *)
Lemma secureWipeBuffer_within_quota (P : Platform) (buffer : Uint8Array) (w : World) :
  Z.of_nat (List.length buffer) <= 65536 ->
  exists w',
    secureWipeBuffer P buffer w = (Ok (repeat x00 (List.length buffer)), w') /\
    limiter w' = limiter w /\ store w' = store w /\ ticks w' = ticks w /\
    (buffer = [] -> w' = w) /\
    (buffer <> [] ->
     exists random,
       getRandomValues P buffer w = (Ok random, w') /\
       List.length random = List.length buffer /\
       fill0 random = repeat x00 (List.length buffer)).
Proof.
  intros Hq. unfold secureWipeBuffer.
  destruct buffer as [|b buffer].
  - exists w. simpl. repeat split; try reflexivity. intros H. now elim H.
  - change (0 <? List.length (b :: buffer))%nat with true. cbv iota.
    unfold bind, getRandomValues, ret.
    destruct (65536 <? Z.of_nat (List.length (b :: buffer))) eqn:E;
      [apply Z.ltb_lt in E; lia|].
    eexists. split.
    { rewrite fill0_zero, length_map, length_seq. reflexivity. }
    split; [reflexivity|]. split; [reflexivity|]. split; [reflexivity|].
    split.
    + intros H. discriminate H.
    + intros _. eexists. split; [reflexivity|]. split.
      * rewrite length_map, length_seq. reflexivity.
      * rewrite fill0_zero, length_map, length_seq. reflexivity.
Qed.

(** C10.  For a buffer of at most 65536 bytes [secureWipeBuffer] returns with
    every byte zero, after overwriting the buffer with random bytes; the
    empty buffer is returned unchanged without error and without any platform
    call.  For a longer buffer [crypto.getRandomValues] throws: the call does
    not return, nothing is written and the buffer is not zeroed. *)
Theorem secureWipeBuffer_zeroes_up_to_quota (P : Platform) (buffer : Uint8Array)
    (w : World) :
  secureWipeBuffer P [] w = (Ok [], w)
  /\ (Z.of_nat (List.length buffer) <= 65536 ->
      exists w',
        secureWipeBuffer P buffer w = (Ok (repeat x00 (List.length buffer)), w') /\
        (buffer <> [] ->
         exists random,
           getRandomValues P buffer w = (Ok random, w') /\
           List.length random = List.length buffer))
  /\ (65536 < Z.of_nat (List.length buffer) ->
      secureWipeBuffer P buffer w = (Throw QuotaExceededError, w)).
Proof.
  split; [reflexivity|]. split.
  - intros Hq.
    destruct (secureWipeBuffer_within_quota P buffer w Hq)
      as (w' & Hrun & _ & _ & _ & _ & Hrand).
    exists w'. split; [exact Hrun|].
    intros Hne. destruct (Hrand Hne) as (random & Hg & Hlen & _).
    exists random. split; assumption.
  - intros Hq. unfold secureWipeBuffer.
    destruct buffer as [|b buffer]; [simpl in Hq; lia|].
    change (0 <? List.length (b :: buffer))%nat with true. cbv iota.
    unfold bind, getRandomValues.
    apply Z.ltb_lt in Hq. rewrite Hq. reflexivity.
Qed.

Lemma secureWipeBuffer_zeroes_up_to_quota_witness :
  65536 < Z.of_nat (List.length overQuotaBuffer)
  /\ secureWipeBuffer Demo.platform overQuotaBuffer initialWorld
     = (Throw QuotaExceededError, initialWorld)
  /\ secureWipeBuffer Demo.platform [x41; x42] initialWorld
     = (Ok [x00; x00],
        {| limiter := initialRateLimitState; store := initialAuthState;
           ticks := 0; drawn := 2; trace := [EvGetRandomValues 2] |}).
Proof.
  assert (H : 65536 < Z.of_nat (List.length overQuotaBuffer))
    by (unfold overQuotaBuffer; rewrite repeat_length; lia).
  split; [exact H|]. split.
  - exact (proj2 (proj2
      (secureWipeBuffer_zeroes_up_to_quota Demo.platform overQuotaBuffer
         initialWorld)) H).
  - reflexivity.
Defined.

Lemma secureWipeBuffer_ignores_limiter (P : Platform) (buffer : Uint8Array)
    (l : RateLimitState) (w : World) :
  secureWipeBuffer P buffer (withLimiter l w)
  = (fst (secureWipeBuffer P buffer w),
     withLimiter l (snd (secureWipeBuffer P buffer w))).
Proof.
  unfold secureWipeBuffer.
  destruct (0 <? List.length buffer)%nat; [|reflexivity].
  unfold bind, getRandomValues, ret.
  destruct (65536 <? Z.of_nat (List.length buffer)); reflexivity.
Qed.

(** The wiping loop over documents within the quota: it returns, leaves the
    limiter and the clock alone, changes nothing in the store but the held
    documents, and runs the same whatever the limiter holds. *)
Lemma wipeLoop_within_quota (P : Platform) (files : list DecryptedFile.t) :
  Forall
    (fun file =>
       Z.of_nat (List.length (TextEncoder_encode (DecryptedFile.content file)))
       <= 65536) files ->
  forall i w,
  exists w',
    wipeLoop P i files w = (Ok tt, w') /\
    limiter w' = limiter w /\ ticks w' = ticks w /\
    sameButFiles (store w) (store w') /\
    forall l, wipeLoop P i files (withLimiter l w) = (Ok tt, withLimiter l w').
Proof.
  induction 1 as [|file rest Hfile Hrest IH]; intros i w.
  - exists w. simpl. unfold sameButFiles. repeat split; reflexivity.
  - destruct (secureWipeBuffer_within_quota P
                (TextEncoder_encode (DecryptedFile.content file)) w Hfile)
      as (w1 & Hrun & Hl1 & Hs1 & Ht1 & _).
    pose (w2 := {| limiter := limiter w1;
                   store :=
                     decryptedFiles_
                       (firstn i (decryptedFiles (store w1)) ++
                        match skipn i (decryptedFiles (store w1)) with
                        | [] => []
                        | f :: tl => DecryptedFile.set_content "" f :: tl
                        end) (store w1);
                   ticks := ticks w1; drawn := drawn w1; trace := trace w1 |}).
    destruct (IH (Datatypes.S i) w2) as (w' & Hloop & Hl & Ht & Hs & Hframe).
    exists w'. split; [|split; [|split; [|split]]].
    + simpl. unfold bind at 1. rewrite Hrun.
      unfold bind at 1. unfold clearContentAt, set. exact Hloop.
    + rewrite Hl. exact Hl1.
    + rewrite Ht. exact Ht1.
    + unfold sameButFiles in *. simpl in Hs. rewrite Hs1 in Hs. exact Hs.
    + intros l. simpl. unfold bind at 1.
      rewrite secureWipeBuffer_ignores_limiter, Hrun. simpl.
      unfold bind at 1. unfold clearContentAt, set. simpl.
      exact (Hframe l).
Qed.

(** C7 (as amended).  From every session state whose held documents each
    encode to at most 65536 bytes, [wipe] returns without error in the cleared
    locked state: not unlocked, no key, no held document, no error, not
    decrypting.  Wiping again changes nothing, and a session that is already
    in the cleared state is left exactly as it is.  The limiter is neither
    read nor written (nor is the clock): its state is unchanged, and the same
    run happens whatever the limiter holds. *)
Theorem wipe_clears_and_is_idempotent (P : Platform) (w : World) :
  withinQuota (store w) ->
  exists w',
    wipe P w = (Ok tt, w') /\
    cleared (store w') /\
    lockoutRemainingMs (store w') = lockoutRemainingMs (store w) /\
    limiter w' = limiter w /\
    ticks w' = ticks w /\
    wipe P w' = (Ok tt, w') /\
    (cleared (store w) -> w' = w) /\
    (forall l, wipe P (withLimiter l w) = (Ok tt, withLimiter l w')).
Proof.
  intros Hq. unfold withinQuota in Hq. unfold wipe, bind, get.
  destruct (decryptedFiles (store w)) as [|file rest] eqn:Hfiles.
  - simpl. unfold set. eexists. split; [reflexivity|].
    unfold cleared. simpl. repeat split.
    + intros (H1 & H2 & H3 & H4 & H5 & H6).
      destruct w as [l s t d tr]. destruct s as [u k fs e m dec r].
      simpl in *. subst. reflexivity.
    + intros l. simpl. rewrite Hfiles. reflexivity.
  - change (0 <? List.length (file :: rest))%nat with true. cbv iota.
    destruct (wipeLoop_within_quota P (file :: rest) Hq 0%nat w)
      as (w1 & Hloop & Hl & Ht & Hs & Hframe).
    rewrite Hloop. unfold set. eexists. split; [reflexivity|].
    unfold cleared, sameButFiles in *. simpl.
    destruct Hs as (_ & _ & _ & _ & _ & Hr).
    repeat split; try assumption.
    + intros (_ & _ & H3 & _). rewrite H3 in Hfiles. discriminate.
    + intros l. simpl. rewrite Hfiles.
      change (0 <? List.length (file :: rest))%nat with true. cbv iota.
      rewrite (Hframe l). reflexivity.
Qed.

Lemma wipe_clears_and_is_idempotent_witness :
  isUnlocked (store unlockedWorld) = true
  /\ exists w',
       wipe Demo.platform unlockedWorld = (Ok tt, w') /\
       cleared (store w') /\
       lockoutRemainingMs (store w') = lockoutRemainingMs (store unlockedWorld) /\
       limiter w' = limiter unlockedWorld /\
       ticks w' = ticks unlockedWorld /\
       wipe Demo.platform w' = (Ok tt, w') /\
       (cleared (store unlockedWorld) -> w' = unlockedWorld) /\
       (forall l,
          wipe Demo.platform (withLimiter l unlockedWorld)
          = (Ok tt, withLimiter l w')).
Proof.
  split; [reflexivity|].
  apply (wipe_clears_and_is_idempotent Demo.platform unlockedWorld).
  unfold withinQuota. vm_compute. repeat constructor. discriminate.
Defined.

(** C7, the claim as written fails: a session that is locked but still shows
    the error of a rejected attempt is changed by [wipe], which clears the
    error and its message. *)
Lemma wipe_changes_locked_session_showing_error :
  isUnlocked (store rejectedWorld) = false
  /\ decryptedFiles (store rejectedWorld) = []
  /\ error (store rejectedWorld) = Some INVALID_PASSPHRASE
  /\ fst (wipe Demo.platform rejectedWorld) = Ok tt
  /\ error (store (snd (wipe Demo.platform rejectedWorld))) = None
  /\ snd (wipe Demo.platform rejectedWorld) <> rejectedWorld.
Proof.
  vm_compute. repeat split. intros H.
  apply (f_equal (fun w => error (store w))) in H. discriminate H.
Qed.

(** Outside the quota [wipe] does not complete: the exception of
    [getRandomValues] escapes, the session stays unlocked and the oversized
    document stays held (the documents before it have lost their content). *)
Example wipe_throws_on_oversized_document :
  fst (wipe Demo.platform oversizedWorld) = Throw QuotaExceededError
  /\ isUnlocked (store (snd (wipe Demo.platform oversizedWorld))) = true
  /\ map DecryptedFile.id
       (decryptedFiles (store (snd (wipe Demo.platform oversizedWorld))))
     = ["doc-1"%string; "doc-2"%string]
  /\ map (fun file => Z.of_nat (String.length (DecryptedFile.content file)))
       (decryptedFiles (store (snd (wipe Demo.platform oversizedWorld))))
     = [0; 65537].
Proof. vm_compute. repeat split. Qed.

(** ** The rate limiter *)

Lemma isLocked_run (P : Platform) (w : World) :
  isLocked P w = (Ok (gateClosed P w), tick w).
Proof. reflexivity. Qed.

Lemma getRemainingLockoutMs_run (P : Platform) (w : World) :
  getRemainingLockoutMs P w
  = (Ok (Z.max 0 (lockedUntil (limiter w) - Date_now P (ticks w))), tick w).
Proof.
  unfold getRemainingLockoutMs, bind, getLimiter, DateNow, ret, tick. simpl.
  destruct (0 <? lockedUntil (limiter w) - Date_now P (ticks w)) eqn:E.
  - apply Z.ltb_lt in E. rewrite Z.max_r by lia. reflexivity.
  - apply Z.ltb_ge in E. rewrite Z.max_l by lia. reflexivity.
Qed.

Lemma recordAttempt_run (P : Platform) (w : World) :
  recordAttempt P w
  = (Ok tt,
     if 5 <=? attempts (limiter w) + 1 then
       limiterStep
         {| attempts := attempts (limiter w) + 1;
            lockedUntil :=
              Date_now P (Datatypes.S (ticks w)) +
              Z.min (15000 * 2 ^ (attempts (limiter w) + 1 - 5)) 300000;
            lastAttempt := Date_now P (ticks w) |} 2 w
     else
       limiterStep
         {| attempts := attempts (limiter w) + 1;
            lockedUntil := lockedUntil (limiter w);
            lastAttempt := Date_now P (ticks w) |} 1 w).
Proof.
  unfold recordAttempt, bind, updateLimiter, getLimiter, DateNow, ret. simpl.
  unfold SECURITY_CONFIG.MAX_UNLOCK_ATTEMPTS, SECURITY_CONFIG.LOCKOUT_BASE_MS,
    SECURITY_CONFIG.LOCKOUT_MULTIPLIER, SECURITY_CONFIG.MAX_LOCKOUT_MS.
  destruct (5 <=? attempts (limiter w) + 1); reflexivity.
Qed.

Lemma lockout_duration_bounds (n : Z) :
  5 <= n ->
  15000 <= Z.min (15000 * 2 ^ (n - 5)) 300000 <= 300000
  /\ (10 <= n -> Z.min (15000 * 2 ^ (n - 5)) 300000 = 300000).
Proof.
  intros Hn.
  assert (H1 : 1 <= 2 ^ (n - 5)).
  { change 1 with (2 ^ 0). apply Z.pow_le_mono_r; lia. }
  split; [lia|].
  intros H10.
  assert (H32 : 32 <= 2 ^ (n - 5)).
  { change 32 with (2 ^ 5). apply Z.pow_le_mono_r; lia. }
  lia.
Qed.

(** C5.  Let [n] be the attempt count reached by [recordAttempt].  The call
    always returns and stores [n].  When [n < 5] the lockout deadline is left
    as it was.  When [n >= 5] the deadline becomes the current time plus
    [min (15000 * 2 ^ (n - 5)) 300000] milliseconds: 15 s, 30 s, 60 s, 120 s
    and 240 s for [n] = 5 .. 9, the cap of 300 s from [n] = 10 on, never less
    than 15 s nor more than 300 s; and [isLocked] answers [true] as long as
    the clock has not reached that deadline, in particular right after the
    call. *)
Theorem recordAttempt_progressive_lockout (P : Platform) (w : World) (n : Z) :
  attempts (limiter w) + 1 = n ->
  exists w',
    recordAttempt P w = (Ok tt, w') /\
    attempts (limiter w') = n /\
    store w' = store w /\
    (n < 5 -> lockedUntil (limiter w') = lockedUntil (limiter w)) /\
    (5 <= n ->
     let duration := Z.min (15000 * 2 ^ (n - 5)) 300000 in
     lockedUntil (limiter w') = Date_now P (Datatypes.S (ticks w)) + duration /\
     15000 <= duration <= 300000 /\
     (n = 5 -> duration = 15000) /\
     (n = 6 -> duration = 30000) /\
     (n = 7 -> duration = 60000) /\
     (n = 8 -> duration = 120000) /\
     (n = 9 -> duration = 240000) /\
     (10 <= n -> duration = 300000) /\
     (Date_now P (ticks w') < Date_now P (Datatypes.S (ticks w)) + duration ->
      fst (isLocked P w') = Ok true) /\
     (Date_now P (ticks w') = Date_now P (Datatypes.S (ticks w)) ->
      fst (isLocked P w') = Ok true)).
Proof.
  intros Hn. rewrite recordAttempt_run. rewrite Hn.
  destruct (5 <=? n) eqn:E; eexists; (split; [reflexivity|]);
    cbn [limiterStep limiter store attempts lockedUntil ticks Nat.add].
  - apply Z.leb_le in E. split; [reflexivity|]. split; [reflexivity|].
    split; [intros; lia|]. intros _.
    destruct (lockout_duration_bounds n E) as [Hb Hcap].
    split; [reflexivity|]. split; [exact Hb|].
    split; [intros ->; reflexivity|]. split; [intros ->; reflexivity|].
    split; [intros ->; reflexivity|]. split; [intros ->; reflexivity|].
    split; [intros ->; reflexivity|]. split; [exact Hcap|].
    unfold isLocked, bind, DateNow, getLimiter, ret.
    cbn [limiterStep limiter store attempts lockedUntil ticks Nat.add fst].
    split.
    + intros Hlt. f_equal. apply Z.ltb_lt. exact Hlt.
    + intros Heq. f_equal. apply Z.ltb_lt. lia.
  - apply Z.leb_gt in E. split; [reflexivity|]. split; [reflexivity|].
    split; [intros; reflexivity | intros; lia].
Qed.

Lemma recordAttempt_progressive_lockout_witness :
  attempts (limiter (afterFailures 4)) + 1 = 5
  /\ fst (isLocked Demo.platform (afterFailures 4)) = Ok false
  /\ exists w',
       recordAttempt Demo.platform (afterFailures 4) = (Ok tt, w') /\
       attempts (limiter w') = 5 /\
       lockedUntil (limiter w')
       = Date_now Demo.platform (Datatypes.S (ticks (afterFailures 4))) + 15000 /\
       fst (isLocked Demo.platform w') = Ok true.
Proof.
  split; [reflexivity|]. split; [reflexivity|].
  destruct (recordAttempt_progressive_lockout Demo.platform (afterFailures 4) 5
              eq_refl)
    as (w' & Hrun & Hn & _ & _ & Hlock).
  exists w'. split; [exact Hrun|]. split; [exact Hn|].
  assert (H5 : 5 <= 5) by lia.
  destruct (Hlock H5) as (Huntil & _ & _ & _ & _ & _ & _ & _ & Himm & _).
  split; [exact Huntil|].
  apply Himm.
  assert (Hw : w' = snd (recordAttempt Demo.platform (afterFailures 4)))
    by (rewrite Hrun; reflexivity).
  rewrite Hw. vm_compute. reflexivity.
Defined.

(** ** Computations that only call the platform *)

Lemma appendTrace_nil (w : World) : appendTrace [] w = w.
Proof. destruct w. unfold appendTrace. simpl. now rewrite app_nil_r. Qed.

Lemma appendTrace_app (a b : list Event) (w : World) :
  appendTrace b (appendTrace a w) = appendTrace (a ++ b) w.
Proof. unfold appendTrace. simpl. now rewrite app_assoc. Qed.

Lemma traceOnly_intro {A} (m : M A) (r : Result A) (evs : list Event) :
  (forall w, m w = (r, appendTrace evs w)) -> traceOnly m.
Proof.
  intros H w. unfold outcome, events. rewrite (H initialWorld). simpl.
  apply H.
Qed.

Lemma traceOnly_ret {A} (a : A) : traceOnly (ret a).
Proof.
  apply (traceOnly_intro _ (Ok a) []). intros w. now rewrite appendTrace_nil.
Qed.

Lemma traceOnly_liftR {A} (r : Result A) : traceOnly (liftR r).
Proof.
  apply (traceOnly_intro _ r []). intros w. now rewrite appendTrace_nil.
Qed.

Lemma traceOnly_emit (e : Event) : traceOnly (emit e).
Proof. apply (traceOnly_intro _ (Ok tt) [e]). reflexivity. Qed.

Lemma traceOnly_bind {A B} (m : M A) (k : A -> M B) :
  traceOnly m -> (forall a, traceOnly (k a)) -> traceOnly (bind m k).
Proof.
  intros Hm Hk.
  apply (traceOnly_intro _
           (match outcome m with Ok a => outcome (k a) | Throw e => Throw e end)
           (events m ++
            match outcome m with Ok a => events (k a) | Throw _ => [] end)).
  intros w. unfold bind. rewrite (Hm w).
  destruct (outcome m) as [a|e].
  - rewrite (Hk a). now rewrite appendTrace_app.
  - now rewrite app_nil_r.
Qed.

Lemma traceOnly_if {A} (b : bool) (m1 m2 : M A) :
  traceOnly m1 -> traceOnly m2 -> traceOnly (if b then m1 else m2).
Proof. destruct b; auto. Qed.

Create HintDb platform_calls.
#[local] Hint Resolve traceOnly_ret traceOnly_liftR traceOnly_emit traceOnly_if :
  platform_calls.

Ltac trace_only :=
  repeat (first
    [ solve [auto with platform_calls]
    | apply traceOnly_bind; [|intros]
    | apply traceOnly_if ]).

Lemma traceOnly_deriveKey (passphrase saltHex : string) :
  traceOnly (deriveKey passphrase saltHex).
Proof.
  unfold deriveKey, importPasswordKey, subtle_importKey, subtle_deriveKey.
  trace_only.
Qed.

Lemma traceOnly_deriveHmacKey (passphrase saltHex : string) :
  traceOnly (deriveHmacKey passphrase saltHex).
Proof.
  unfold deriveHmacKey, importPasswordKey, subtle_importKey, subtle_deriveKey.
  trace_only.
Qed.

Lemma traceOnly_verifyHmac (P : Platform) (key : CryptoKey)
    (data expectedHmacHex : string) :
  traceOnly (verifyHmac P key data expectedHmacHex).
Proof. unfold verifyHmac, sign. trace_only. Qed.

Lemma traceOnly_decryptData (P : Platform) (key : CryptoKey)
    (ivHex encryptedBase64 : string) :
  traceOnly (decryptData P key ivHex encryptedBase64).
Proof. unfold decryptData, decrypt. trace_only. Qed.

#[local] Hint Resolve traceOnly_deriveKey traceOnly_deriveHmacKey
  traceOnly_verifyHmac traceOnly_decryptData : platform_calls.

Lemma traceOnly_verifyVaultIntegrity (P : Platform) (vaultData : VaultManifest)
    (passphrase : string) :
  traceOnly (verifyVaultIntegrity P vaultData passphrase).
Proof. unfold verifyVaultIntegrity. trace_only. Qed.

Lemma traceOnly_decryptLoop (P : Platform) (key : CryptoKey)
    (files : list VaultFile.t) :
  forall decrypted, traceOnly (decryptLoop P key files decrypted).
Proof.
  induction files as [|file rest IH]; intros decrypted; simpl.
  - apply traceOnly_ret.
  - apply traceOnly_bind; [apply traceOnly_decryptData | intros; apply IH].
Qed.

Lemma outcome_bind {A B} (m : M A) (k : A -> M B) :
  traceOnly m -> (forall a, traceOnly (k a)) ->
  outcome (bind m k)
  = match outcome m with Ok a => outcome (k a) | Throw e => Throw e end.
Proof.
  intros Hm Hk. unfold outcome at 1. unfold bind. rewrite (Hm initialWorld).
  destruct (outcome m) as [a|e]; [|reflexivity].
  rewrite (Hk a). reflexivity.
Qed.

(** What the decryption loop returns: the documents in manifest order when
    every one decrypts, the first failure otherwise. *)
Lemma decryptLoop_outcome (P : Platform) (key : CryptoKey)
    (files : list VaultFile.t) :
  forall decrypted,
    (Forall
       (fun file =>
          isOk (outcome (decryptData P key (VaultFile.iv file)
                           (VaultFile.data file))) = true) files ->
     outcome (decryptLoop P key files decrypted)
     = Ok (decrypted ++
           map (fun file =>
                  decryptedOf file
                    (match outcome (decryptData P key (VaultFile.iv file)
                                      (VaultFile.data file)) with
                     | Ok content => content
                     | Throw _ => EmptyString
                     end)) files))
    /\ (Exists
          (fun file =>
             isOk (outcome (decryptData P key (VaultFile.iv file)
                              (VaultFile.data file))) = false) files ->
        isOk (outcome (decryptLoop P key files decrypted)) = false).
Proof.
  induction files as [|file rest IH]; intros decrypted.
  - split.
    + intros _. simpl. now rewrite app_nil_r.
    + intros H. inversion H.
  - simpl decryptLoop.
    rewrite outcome_bind
      by (try apply traceOnly_decryptData; intros; apply traceOnly_decryptLoop).
    destruct (outcome (decryptData P key (VaultFile.iv file) (VaultFile.data file)))
      as [content|e] eqn:E.
    + destruct (IH (decrypted ++
                      [{| DecryptedFile.id := VaultFile.id file;
                          DecryptedFile.title := VaultFile.title file;
                          DecryptedFile.priority := VaultFile.priority file;
                          DecryptedFile.tags := VaultFile.tags file;
                          DecryptedFile.content := content |}]))
        as [IHok IHfail].
      split.
      * intros Hall. inversion Hall as [|? ? _ Hrest]; subst.
        rewrite (IHok Hrest). rewrite <- app_assoc. simpl. rewrite E.
        reflexivity.
      * intros Hex. inversion Hex as [? ? Hhead|? ? Htail]; subst.
        -- rewrite E in Hhead. discriminate.
        -- exact (IHfail Htail).
    + split.
      * intros Hall. inversion Hall as [|? ? Hhead _]; subst.
        rewrite E in Hhead. discriminate.
      * intros _. reflexivity.
Qed.

(** ** Unlocking *)

Lemma rejected_integrity_run (P : Platform) (w : World) :
  bind (recordAttempt P)
    (fun _ =>
       bind (getRemainingLockoutMs P)
         (fun remaining =>
            set (fun s =>
              lockoutRemainingMs_ remaining
                (isDecrypting_ false
                   (errorMessage_ (getErrorMessage (Some INTEGRITY_FAILURE))
                      (error_ (Some INTEGRITY_FAILURE) s)))))) w
  = (Ok tt, rejected P INTEGRITY_FAILURE false w).
Proof.
  unfold bind, rejected. rewrite recordAttempt_run. cbn [snd].
  rewrite getRemainingLockoutMs_run. reflexivity.
Qed.

Lemma rejected_passphrase_run (P : Platform) (w : World) :
  bind (recordAttempt P)
    (fun _ =>
       bind (getRemainingLockoutMs P)
         (fun remaining =>
            set (fun s =>
              lockoutRemainingMs_ remaining
                (masterKey_ None
                   (isDecrypting_ false
                      (errorMessage_ (getErrorMessage (Some INVALID_PASSPHRASE))
                         (error_ (Some INVALID_PASSPHRASE) s))))))) w
  = (Ok tt, rejected P INVALID_PASSPHRASE true w).
Proof.
  unfold bind, rejected. rewrite recordAttempt_run. cbn [snd].
  rewrite getRemainingLockoutMs_run. reflexivity.
Qed.

(** [unlock] always returns; its final state is determined by the gate, the
    shape of the manifest and the outcomes of the three cryptographic steps. *)
Lemma unlock_run (P : Platform) (vaultData : VaultManifest) (passphrase : string)
    (w : World) :
  unlock P vaultData passphrase w
  = (Ok tt,
     if gateClosed P w then
       {| limiter := limiter w;
          store :=
            lockoutRemainingMs_
              (Z.max 0 (lockedUntil (limiter w)
                        - Date_now P (Datatypes.S (ticks w))))
              (errorMessage_ (getErrorMessage (Some RATE_LIMITED))
                 (error_ (Some RATE_LIMITED) (store w)));
          ticks := Datatypes.S (Datatypes.S (ticks w));
          drawn := drawn w; trace := trace w |}
     else if vaultEmpty vaultData then
       {| limiter := limiter w;
          store :=
            isDecrypting_ false
              (errorMessage_ (getErrorMessage (Some VAULT_EMPTY))
                 (error_ (Some VAULT_EMPTY) (started (store w))));
          ticks := Datatypes.S (ticks w);
          drawn := drawn w; trace := trace w |}
     else
       let integrity := verifyVaultIntegrity P vaultData passphrase in
       let derive := deriveKey passphrase (salt vaultData) in
       match outcome integrity with
       | Throw _ =>
           rejected P INVALID_PASSPHRASE true
             (appendTrace (events integrity) (entered w))
       | Ok false =>
           rejected P INTEGRITY_FAILURE false
             (appendTrace (events integrity) (entered w))
       | Ok true =>
           match outcome derive with
           | Throw _ =>
               rejected P INVALID_PASSPHRASE true
                 (appendTrace (events integrity ++ events derive) (entered w))
           | Ok key =>
               let loop := decryptLoop P key (files vaultData) [] in
               match outcome loop with
               | Throw _ =>
                   rejected P INVALID_PASSPHRASE true
                     (appendTrace
                        (events integrity ++ events derive ++ events loop)
                        (entered w))
               | Ok decrypted =>
                   accepted key decrypted
                     (appendTrace
                        (events integrity ++ events derive ++ events loop)
                        (entered w))
               end
           end
       end).
Proof.
  unfold unlock. unfold bind at 1. rewrite isLocked_run.
  destruct (gateClosed P w) eqn:Hgate.
  - unfold bind. rewrite getRemainingLockoutMs_run. reflexivity.
  - unfold bind at 1. unfold set at 1. unfold tryCatch.
    fold (vaultEmpty vaultData).
    destruct (vaultEmpty vaultData) eqn:Hempty; [reflexivity|].
    change {| limiter := limiter (tick w);
              store := errorMessage_ "" (error_ None (isDecrypting_ true (store (tick w))));
              ticks := ticks (tick w); drawn := drawn (tick w);
              trace := trace (tick w) |}
      with (entered w).
    cbv zeta.
    unfold bind at 1.
    rewrite (traceOnly_verifyVaultIntegrity P vaultData passphrase (entered w)).
    destruct (outcome (verifyVaultIntegrity P vaultData passphrase))
      as [[|]|e].
    + cbn [negb]. cbv iota. unfold bind at 1.
      rewrite (traceOnly_deriveKey passphrase (salt vaultData)).
      rewrite appendTrace_app.
      destruct (outcome (deriveKey passphrase (salt vaultData))) as [key|e].
      * unfold bind at 1.
        rewrite (traceOnly_decryptLoop P key (files vaultData) []).
        rewrite appendTrace_app, <- app_assoc.
        destruct (outcome (decryptLoop P key (files vaultData) []))
          as [decrypted|e].
        -- reflexivity.
        -- rewrite rejected_passphrase_run. reflexivity.
      * rewrite rejected_passphrase_run. reflexivity.
    + cbn [negb]. cbv iota. rewrite rejected_integrity_run. reflexivity.
    + rewrite rejected_passphrase_run. reflexivity.
Qed.

Lemma rejected_penalised (P : Platform) (code : AuthErrorCode) (dropKey : bool)
    (evs : list Event) (w : World) :
  penalised code w (rejected P code dropKey (appendTrace evs (entered w)))
  /\ trace (rejected P code dropKey (appendTrace evs (entered w))) = trace w ++ evs
  /\ drawn (rejected P code dropKey (appendTrace evs (entered w))) = drawn w
  /\ (dropKey = true ->
      masterKey (store (rejected P code dropKey (appendTrace evs (entered w))))
      = None).
Proof.
  unfold penalised, rejected. rewrite recordAttempt_run.
  destruct (5 <=? attempts (limiter (appendTrace evs (entered w))) + 1);
    destruct dropKey; cbn; repeat split; try reflexivity; discriminate.
Qed.

(** A locked session holds no document: [unlock] preserves this, whatever
    path it takes. *)
Lemma unlock_keeps_locked_sessions_empty (P : Platform)
    (vaultData : VaultManifest) (passphrase : string) (w : World) :
  (isUnlocked (store w) = false -> decryptedFiles (store w) = []) ->
  isUnlocked (store (snd (unlock P vaultData passphrase w))) = false ->
  decryptedFiles (store (snd (unlock P vaultData passphrase w))) = [].
Proof.
  intros Hinv. rewrite unlock_run. cbn [snd].
  destruct (gateClosed P w); [exact Hinv|].
  destruct (vaultEmpty vaultData); [exact Hinv|].
  cbv zeta.
  assert (Hrej : forall code dropKey evs,
            isUnlocked
              (store (rejected P code dropKey (appendTrace evs (entered w))))
            = false ->
            decryptedFiles
              (store (rejected P code dropKey (appendTrace evs (entered w))))
            = []).
  { intros code dropKey evs.
    destruct (rejected_penalised P code dropKey evs w)
      as ((_ & _ & _ & _ & Hunl & Hfiles) & _).
    rewrite Hunl, Hfiles. exact Hinv. }
  destruct (outcome (verifyVaultIntegrity P vaultData passphrase))
    as [[|]|e]; try apply Hrej.
  destruct (outcome (deriveKey passphrase (salt vaultData))) as [key|e];
    try apply Hrej.
  destruct (outcome (decryptLoop P key (files vaultData) []))
    as [decrypted|e]; try apply Hrej.
  cbn. discriminate.
Qed.

(** C4.  Take a locked session holding no document, the gate open, a populated
    manifest whose integrity check passes, and the derived encryption key.
    [unlock] returns, and: if some document fails to decrypt, exactly one
    attempt is recorded, the error is INVALID_PASSPHRASE and the session is
    still locked and still holds no document; if every document decrypts, the
    session is unlocked and holds one document per manifest entry, in manifest
    order, each with its decrypted content; and the session is unlocked only
    if every document decrypted. *)
Theorem unlock_all_or_nothing (P : Platform) (vaultData : VaultManifest)
    (passphrase : string) (key : CryptoKey) (w : World) :
  isUnlocked (store w) = false ->
  decryptedFiles (store w) = [] ->
  gateClosed P w = false ->
  vaultEmpty vaultData = false ->
  outcome (verifyVaultIntegrity P vaultData passphrase) = Ok true ->
  outcome (deriveKey passphrase (salt vaultData)) = Ok key ->
  let decrypts (file : VaultFile.t) :=
    isOk (outcome (decryptData P key (VaultFile.iv file) (VaultFile.data file))) in
  exists w',
    unlock P vaultData passphrase w = (Ok tt, w') /\
    (Exists (fun file => decrypts file = false) (files vaultData) ->
     attempts (limiter w') = attempts (limiter w) + 1 /\
     error (store w') = Some INVALID_PASSPHRASE /\
     isUnlocked (store w') = false /\
     decryptedFiles (store w') = [] /\
     masterKey (store w') = None) /\
    (Forall (fun file => decrypts file = true) (files vaultData) ->
     isUnlocked (store w') = true /\
     decryptedFiles (store w')
     = map (fun file =>
              decryptedOf file
                (match outcome (decryptData P key (VaultFile.iv file)
                                  (VaultFile.data file)) with
                 | Ok content => content
                 | Throw _ => EmptyString
                 end)) (files vaultData) /\
     masterKey (store w') = Some key /\
     error (store w') = None /\
     attempts (limiter w') = 0) /\
    (isUnlocked (store w') = true ->
     Forall (fun file => decrypts file = true) (files vaultData)).
Proof.
  intros Hlocked Hnone Hgate Hempty Hint Hkey decrypts.
  rewrite unlock_run, Hgate, Hempty. cbv zeta. rewrite Hint, Hkey.
  destruct (decryptLoop_outcome P key (files vaultData) []) as [Hall Hsome].
  fold decrypts in Hall, Hsome.
  eexists. split; [reflexivity|].
  destruct (outcome (decryptLoop P key (files vaultData) []))
    as [decrypted|e] eqn:Hloop.
  - split; [|split].
    + intros Hex. apply Hsome in Hex. discriminate Hex.
    + intros Hfa. apply Hall in Hfa. injection Hfa as ->.
      cbn. repeat split; reflexivity.
    + intros _.
      destruct (Forall_Exists_dec (fun file => decrypts file = true)
                  (fun file => bool_dec (decrypts file) true) (files vaultData))
        as [Hfa|Hex]; [exact Hfa|].
      assert (Hex' : Exists (fun file => decrypts file = false) (files vaultData)).
      { eapply Exists_impl; [|exact Hex].
        intros file Hf. simpl in Hf. now apply not_true_is_false. }
      apply Hsome in Hex'. discriminate Hex'.
  - destruct (rejected_penalised P INVALID_PASSPHRASE true
                (events (verifyVaultIntegrity P vaultData passphrase) ++
                 events (deriveKey passphrase (salt vaultData)) ++
                 events (decryptLoop P key (files vaultData) [])) w)
      as ((Hatt & Herr & _ & _ & Hunl & Hfiles) & _ & _ & Hmk).
    split; [|split].
    + intros _. rewrite Hatt, Herr, Hunl, Hfiles, Hlocked, Hnone, (Hmk eq_refl).
      repeat split; reflexivity.
    + intros Hfa. apply Hall in Hfa. discriminate Hfa.
    + rewrite Hunl, Hlocked. discriminate.
Qed.

Lemma unlock_all_or_nothing_witness :
  (exists w',
     unlock Demo.platform Demo.vaultCorruptDocument Demo.passphrase initialWorld
     = (Ok tt, w') /\
     attempts (limiter w') = 1 /\
     error (store w') = Some INVALID_PASSPHRASE /\
     isUnlocked (store w') = false /\
     decryptedFiles (store w') = [])
  /\ (exists w',
        unlock Demo.platform Demo.vault Demo.passphrase initialWorld = (Ok tt, w') /\
        isUnlocked (store w') = true /\
        map DecryptedFile.content (decryptedFiles (store w'))
        = ["# Incident Response"%string]).
Proof.
  split.
  - destruct (unlock_all_or_nothing Demo.platform Demo.vaultCorruptDocument
                Demo.passphrase
                Demo.encryptionKey
                initialWorld eq_refl eq_refl eq_refl eq_refl eq_refl eq_refl)
      as (w' & Hrun & Hfail & _ & _).
    exists w'. split; [exact Hrun|].
    assert (Hex : Exists
      (fun file =>
         isOk (outcome (decryptData Demo.platform Demo.encryptionKey
                          (VaultFile.iv file) (VaultFile.data file))) = false)
      (files Demo.vaultCorruptDocument)).
    { apply Exists_cons_tl. apply Exists_cons_hd. reflexivity. }
    destruct (Hfail Hex) as (H1 & H2 & H3 & H4 & _).
    repeat split; assumption.
  - destruct (unlock_all_or_nothing Demo.platform Demo.vault Demo.passphrase
                Demo.encryptionKey
                initialWorld eq_refl eq_refl eq_refl eq_refl eq_refl eq_refl)
      as (w' & Hrun & _ & Hok & _).
    exists w'. split; [exact Hrun|].
    assert (Hfa : Forall
      (fun file =>
         isOk (outcome (decryptData Demo.platform Demo.encryptionKey
                          (VaultFile.iv file) (VaultFile.data file))) = true)
      (files Demo.vault)).
    { repeat constructor. }
    destruct (Hok Hfa) as (H1 & H2 & _).
    split; [exact H1|]. rewrite H2. reflexivity.
Defined.

(** C1, the claim as written fails: an integrity failure and a decryption
    failure are reported with different error codes and different messages
    (both cost one attempt). *)
Lemma integrity_and_decrypt_failures_differ :
  getErrorMessage (Some INTEGRITY_FAILURE) = "Vault integrity check failed"%string
  /\ getErrorMessage (Some INVALID_PASSPHRASE) = "Access denied"%string
  /\ getErrorMessage (Some INTEGRITY_FAILURE)
     <> getErrorMessage (Some INVALID_PASSPHRASE)
  /\ error (store tamperedWorld) = Some INTEGRITY_FAILURE
  /\ error (store corruptWorld) = Some INVALID_PASSPHRASE
  /\ errorMessage (store tamperedWorld) = "Vault integrity check failed"%string
  /\ errorMessage (store corruptWorld) = "Access denied"%string
  /\ errorMessage (store tamperedWorld) <> errorMessage (store corruptWorld)
  /\ attempts (limiter tamperedWorld) = 1
  /\ attempts (limiter corruptWorld) = 1.
Proof. vm_compute. repeat split; intros H; discriminate H. Qed.

(** C1 (as amended).  Past the gate and on a populated manifest, an integrity
    mismatch and a decryption failure carry the same penalty: in each case
    [unlock] returns having recorded exactly one attempt, with [isDecrypting]
    cleared and the session's lock state and held documents as they were.
    They are not presented identically: the first sets INTEGRITY_FAILURE with
    the message "Vault integrity check failed", the second INVALID_PASSPHRASE
    with the message "Access denied". *)
Theorem unlock_failures_same_penalty_distinct_messages (P : Platform)
    (vaultData : VaultManifest) (passphrase : string) (w : World) :
  gateClosed P w = false ->
  vaultEmpty vaultData = false ->
  exists w',
    unlock P vaultData passphrase w = (Ok tt, w') /\
    (outcome (verifyVaultIntegrity P vaultData passphrase) = Ok false ->
     penalised INTEGRITY_FAILURE w w' /\
     errorMessage (store w') = "Vault integrity check failed"%string) /\
    (outcome (verifyVaultIntegrity P vaultData passphrase) = Ok true ->
     forall key,
       outcome (deriveKey passphrase (salt vaultData)) = Ok key ->
       isOk (outcome (decryptLoop P key (files vaultData) [])) = false ->
       penalised INVALID_PASSPHRASE w w' /\
       errorMessage (store w') = "Access denied"%string) /\
    getErrorMessage (Some INTEGRITY_FAILURE)
    <> getErrorMessage (Some INVALID_PASSPHRASE).
Proof.
  intros Hgate Hempty. rewrite unlock_run, Hgate, Hempty. cbv zeta.
  eexists. split; [reflexivity|]. split; [|split].
  - intros Hint. rewrite Hint.
    destruct (rejected_penalised P INTEGRITY_FAILURE false
                (events (verifyVaultIntegrity P vaultData passphrase)) w)
      as (Hpen & _).
    split; [exact Hpen|].
    destruct Hpen as (_ & _ & Hmsg & _). exact Hmsg.
  - intros Hint key Hkey Hloop. rewrite Hint, Hkey.
    destruct (outcome (decryptLoop P key (files vaultData) []))
      as [decrypted|e]; [discriminate Hloop|].
    destruct (rejected_penalised P INVALID_PASSPHRASE true
                (events (verifyVaultIntegrity P vaultData passphrase) ++
                 events (deriveKey passphrase (salt vaultData)) ++
                 events (decryptLoop P key (files vaultData) [])) w)
      as (Hpen & _).
    split; [exact Hpen|].
    destruct Hpen as (_ & _ & Hmsg & _). exact Hmsg.
  - discriminate.
Qed.

Lemma unlock_failures_same_penalty_distinct_messages_witness :
  exists w',
    unlock Demo.platform Demo.vaultTampered Demo.passphrase initialWorld
    = (Ok tt, w') /\
    penalised INTEGRITY_FAILURE initialWorld w' /\
    errorMessage (store w') = "Vault integrity check failed"%string.
Proof.
  destruct (unlock_failures_same_penalty_distinct_messages Demo.platform
              Demo.vaultTampered Demo.passphrase initialWorld eq_refl eq_refl)
    as (w' & Hrun & Hint & _).
  exists w'. split; [exact Hrun|]. apply Hint. reflexivity.
Defined.

(** ** Malformed salt *)

Lemma hexToBuffer_rejects (hex : string) :
  isHexString hex && Nat.eqb (String.length hex mod 2) 0 = false ->
  hexToBuffer hex = Throw InvalidHexString.
Proof.
  intros H. unfold hexToBuffer.
  destruct (isHexString hex), (Nat.eqb (String.length hex mod 2) 0);
    try reflexivity; discriminate.
Qed.

(** With a salt that does not decode, neither derivation reaches PBKDF2. *)
Lemma derivations_stop_at_bad_salt (passphrase saltHex : string) :
  hexToBuffer saltHex = Throw InvalidHexString ->
  outcome (deriveKey passphrase saltHex) = Throw InvalidHexString
  /\ events (deriveKey passphrase saltHex) = []
  /\ outcome (deriveHmacKey passphrase saltHex) = Throw InvalidHexString
  /\ events (deriveHmacKey passphrase saltHex) = [].
Proof.
  intros H.
  unfold outcome, events, deriveKey, deriveHmacKey, importPasswordKey,
    subtle_importKey, bind, liftR, ret.
  rewrite H. repeat split.
Qed.

(** C2, the claim as written fails: a salt that is not hexadecimal makes
    [unlock] report INVALID_PASSPHRASE (the store has no other code for it)
    and costs one attempt; a hexadecimal salt of the wrong length (one byte
    here) is accepted and the key is derived from it. *)
Lemma bad_salt_counts_as_wrong_passphrase :
  let w := snd (unlock Demo.platform Demo.vaultBadSalt Demo.passphrase initialWorld) in
  let w1 := snd (unlock Demo.platform Demo.vaultShortSalt Demo.passphrase initialWorld) in
  hexToBuffer (salt Demo.vaultBadSalt) = Throw InvalidHexString
  /\ error (store w) = Some INVALID_PASSPHRASE
  /\ attempts (limiter w) = 1
  /\ attempts (limiter w) <> attempts (limiter initialWorld)
  /\ hexToBuffer (salt Demo.vaultShortSalt) = Ok [xaa]
  /\ hd_error (trace w1)
     = Some (EvDeriveKey
               {| kdf_name := "PBKDF2"; kdf_salt := [xaa];
                  kdf_iterations := 600000; kdf_hash := "SHA-256" |}
               {| alg_name := "AES-GCM"; alg_hash := None; alg_length := 256 |}).
Proof. vm_compute. repeat split. intros H. discriminate H. Qed.

(** C2 (as amended).  When the salt of a populated manifest is a non-empty
    string that is not an even-length run of hexadecimal digits, [unlock]
    (past the gate) fails before any platform call: no key derivation, no
    signature, no decryption.  The failure is reported as INVALID_PASSPHRASE
    with the message "Access denied" and is recorded as one attempt. *)
Theorem unlock_bad_salt_fails_before_derivation (P : Platform)
    (vaultData : VaultManifest) (passphrase : string) (w : World) :
  gateClosed P w = false ->
  vaultEmpty vaultData = false ->
  isHexString (salt vaultData)
  && Nat.eqb (String.length (salt vaultData) mod 2) 0 = false ->
  exists w',
    unlock P vaultData passphrase w = (Ok tt, w') /\
    trace w' = trace w /\
    penalised INVALID_PASSPHRASE w w' /\
    errorMessage (store w') = "Access denied"%string.
Proof.
  intros Hgate Hempty Hbad.
  apply hexToBuffer_rejects in Hbad.
  destruct (derivations_stop_at_bad_salt passphrase (salt vaultData) Hbad)
    as (Hd & Hde & Hh & Hhe).
  assert (Hint :
    (outcome (verifyVaultIntegrity P vaultData passphrase) = Ok true
     \/ outcome (verifyVaultIntegrity P vaultData passphrase)
        = Throw InvalidHexString)
    /\ events (verifyVaultIntegrity P vaultData passphrase) = []).
  { unfold verifyVaultIntegrity.
    destruct (hmacMissing (hmac vaultData)).
    - split; [left|]; reflexivity.
    - rewrite outcome_bind
        by (try apply traceOnly_deriveHmacKey; intros;
            apply traceOnly_verifyHmac).
      rewrite Hh. split; [right; reflexivity|].
      unfold events, bind.
      rewrite (traceOnly_deriveHmacKey passphrase (salt vaultData) initialWorld).
      rewrite Hh, Hhe. reflexivity. }
  destruct Hint as (Hio & Hie).
  rewrite unlock_run, Hgate, Hempty. cbv zeta. rewrite Hie, Hd, Hde.
  eexists. split; [reflexivity|].
  destruct (rejected_penalised P INVALID_PASSPHRASE true [] w)
    as (Hpen & Htrace & _).
  rewrite app_nil_r in Htrace.
  destruct Hio as [Hio|Hio]; rewrite Hio; cbn [app];
    (split; [exact Htrace|]); (split; [exact Hpen|]);
    destruct Hpen as (_ & _ & Hmsg & _); exact Hmsg.
Qed.

Lemma unlock_bad_salt_fails_before_derivation_witness :
  exists w',
    unlock Demo.platform Demo.vaultBadSalt Demo.passphrase initialWorld
    = (Ok tt, w') /\
    trace w' = [] /\
    penalised INVALID_PASSPHRASE initialWorld w' /\
    errorMessage (store w') = "Access denied"%string.
Proof.
  exact (unlock_bad_salt_fails_before_derivation Demo.platform Demo.vaultBadSalt
           Demo.passphrase initialWorld eq_refl eq_refl eq_refl).
Defined.

(** ** Re-entrance *)

(** C3, the claim as written fails: [unlock] does not look at [isDecrypting].
    Called while the flag is set it derives the keys, decrypts and unlocks the
    session all the same. *)
Lemma unlock_runs_while_decrypting :
  let w' := snd (unlock Demo.platform Demo.vault Demo.passphrase inFlightWorld) in
  isDecrypting (store inFlightWorld) = true
  /\ List.length (trace w') = 4%nat
  /\ isUnlocked (store w') = true
  /\ store w' <> store inFlightWorld.
Proof.
  vm_compute. repeat split. intros H.
  apply (f_equal isUnlocked) in H. discriminate H.
Qed.

(** C3 (as amended).  The guard is in the submit handler of the unlock screen:
    while [isDecrypting] is set, [handleSubmit] returns without calling
    [unlock]; no key is derived, nothing is decrypted, session, limiter and
    clock are untouched and the passphrase field keeps its content.  [unlock]
    itself does not test the flag: past the gate it runs exactly as it would
    with the flag cleared. *)
Theorem handleSubmit_blocked_while_decrypting (P : Platform)
    (vaultData : VaultManifest) (passphrase : string) (displayLockout : Z)
    (w : World) :
  isDecrypting (store w) = true ->
  handleSubmit P vaultData passphrase displayLockout w = (Ok passphrase, w)
  /\ (gateClosed P w = false ->
      unlock P vaultData passphrase w
      = unlock P vaultData passphrase
          (withStore (isDecrypting_ false (store w)) w)).
Proof.
  intros H. split.
  - unfold handleSubmit, bind, get. rewrite H.
    rewrite orb_true_r. reflexivity.
  - intros Hgate. rewrite !unlock_run.
    change (gateClosed P (withStore (isDecrypting_ false (store w)) w))
      with (gateClosed P w).
    rewrite Hgate. reflexivity.
Qed.

Lemma handleSubmit_blocked_while_decrypting_witness :
  handleSubmit Demo.platform Demo.vault Demo.passphrase 0 inFlightWorld
  = (Ok Demo.passphrase, inFlightWorld).
Proof.
  exact (proj1 (handleSubmit_blocked_while_decrypting Demo.platform Demo.vault
                  Demo.passphrase 0 inFlightWorld eq_refl)).
Defined.

Example handleSubmit_calls_unlock_when_idle :
  snd (handleSubmit Demo.platform Demo.vault Demo.passphrase 0 initialWorld)
  = unlockedWorld.
Proof. vm_compute. reflexivity. Qed.

(** ** Reset of the attempt count *)

Lemma accepted_reset (key : CryptoKey) (decrypted : list DecryptedFile.t)
    (w : World) :
  limiter (accepted key decrypted w) = initialRateLimitState
  /\ isUnlocked (store (accepted key decrypted w)) = true
  /\ error (store (accepted key decrypted w)) = None.
Proof. repeat split. Qed.

(** C6.  Reading the gate ([isLocked], [getRemainingLockoutMs],
    [updateLockoutTime]) never changes the limiter, so a lockout that expires
    leaves the attempt count where it was: once the clock has reached the
    deadline [isLocked] answers [false] and the next recorded failure counts
    from the elevated value.  [unlock] returns in every state; when it goes
    all the way it leaves the count at 0 and the deadline at 0, so that
    [isLocked] answers [false] (the clock being non-negative), whatever the
    count was before; in every other case the count is unchanged or one
    higher, never reset. *)
Theorem attempts_reset_only_by_successful_unlock (P : Platform)
    (vaultData : VaultManifest) (passphrase : string) (w : World) :
  limiter (snd (isLocked P w)) = limiter w
  /\ limiter (snd (getRemainingLockoutMs P w)) = limiter w
  /\ limiter (snd (updateLockoutTime P w)) = limiter w
  /\ (lockedUntil (limiter w) <= Date_now P (ticks w) ->
      fst (isLocked P w) = Ok false /\
      attempts (limiter (snd (recordAttempt P (snd (isLocked P w)))))
      = attempts (limiter w) + 1)
  /\ exists w',
       unlock P vaultData passphrase w = (Ok tt, w') /\
       (succeeds P vaultData passphrase w = true ->
        attempts (limiter w') = 0 /\
        lockedUntil (limiter w') = 0 /\
        isUnlocked (store w') = true /\
        (0 <= Date_now P (ticks w') -> fst (isLocked P w') = Ok false)) /\
       (succeeds P vaultData passphrase w = false ->
        attempts (limiter w') = attempts (limiter w) \/
        attempts (limiter w') = attempts (limiter w) + 1).
Proof.
  split; [reflexivity|].
  split; [rewrite getRemainingLockoutMs_run; reflexivity|].
  split.
  { unfold updateLockoutTime, bind. rewrite getRemainingLockoutMs_run.
    reflexivity. }
  split.
  { intros Hexp. rewrite isLocked_run. cbn [fst snd]. split.
    - unfold gateClosed. f_equal. apply Z.ltb_ge. exact Hexp.
    - rewrite recordAttempt_run. cbn [snd tick limiter].
      destruct (5 <=? attempts (limiter w) + 1); reflexivity. }
  rewrite unlock_run. unfold succeeds. cbv zeta.
  eexists. split; [reflexivity|].
  destruct (gateClosed P w); [split; [discriminate | intros _; left; reflexivity]|].
  destruct (vaultEmpty vaultData);
    [split; [discriminate | intros _; left; reflexivity]|].
  cbn [negb andb].
  destruct (outcome (verifyVaultIntegrity P vaultData passphrase))
    as [[|]|e].
  - destruct (outcome (deriveKey passphrase (salt vaultData))) as [key|e].
    + destruct (outcome (decryptLoop P key (files vaultData) []))
        as [decrypted|e].
      * split; [|discriminate]. intros _.
        split; [reflexivity|]. split; [reflexivity|]. split; [reflexivity|].
        intros Hnow. rewrite isLocked_run. cbn [fst]. f_equal.
        unfold gateClosed. apply Z.ltb_ge. exact Hnow.
      * split; [discriminate|]. intros _. right.
        apply rejected_penalised.
    + split; [discriminate|]. intros _. right. apply rejected_penalised.
  - split; [discriminate|]. intros _. right. apply rejected_penalised.
  - split; [discriminate|]. intros _. right. apply rejected_penalised.
Qed.

(** Four rejected attempts, then the right passphrase. *)
Lemma attempts_reset_only_by_successful_unlock_witness :
  attempts (limiter (afterFailures 4)) = 4
  /\ exists w',
       unlock Demo.platform Demo.vault Demo.passphrase (afterFailures 4)
       = (Ok tt, w') /\
       attempts (limiter w') = 0 /\
       fst (isLocked Demo.platform w') = Ok false.
Proof.
  split; [reflexivity|].
  destruct (attempts_reset_only_by_successful_unlock Demo.platform Demo.vault
              Demo.passphrase (afterFailures 4))
    as (_ & _ & _ & _ & w' & Hrun & Hok & _).
  exists w'. split; [exact Hrun|].
  assert (Hs : succeeds Demo.platform Demo.vault Demo.passphrase (afterFailures 4)
               = true) by reflexivity.
  destruct (Hok Hs) as (Hatt & _ & _ & Hgate).
  split; [exact Hatt|].
  apply Hgate. unfold Demo.platform, Date_now. lia.
Defined.

(** A lockout that has expired: the count is still 5 and the next failure is
    the sixth, locking for 30 s. *)
Example sixth_failure_after_expiry :
  let w5 := afterFailures 5 in
  let later := limiterStep (limiter w5) 20 w5 in
  attempts (limiter w5) = 5
  /\ fst (isLocked Demo.platform w5) = Ok true
  /\ fst (isLocked Demo.platform later) = Ok false
  /\ attempts (limiter later) = 5
  /\ attempts (limiter (snd (recordAttempt Demo.platform later))) = 6
  /\ lockedUntil (limiter (snd (recordAttempt Demo.platform later)))
     - Date_now Demo.platform (Datatypes.S (ticks later)) = 30000.
Proof. vm_compute. repeat split. Qed.

(** While the lockout lasts, even the right passphrase is turned away before
    any platform call, and the count stays where it is. *)
Example unlock_rate_limited_after_five_failures :
  let w := snd (unlock Demo.platform Demo.vault Demo.passphrase (afterFailures 5)) in
  error (store w) = Some RATE_LIMITED
  /\ errorMessage (store w) = "Too many attempts. Please wait."%string
  /\ isUnlocked (store w) = false
  /\ attempts (limiter w) = 5
  /\ trace w = []
  /\ lockoutRemainingMs (store w) = 13000.
Proof. vm_compute. repeat split. Qed.

(** * Further properties of the code *)

(** ** Hexadecimal and base64 decoding *)

Lemma forRange_store_length (f : nat -> byte) (n : nat) :
  List.length
    (forRange n 0%nat (fun i buffer => setIndex buffer i (f i)) (newUint8Array n))
  = n.
Proof. rewrite forRange_store_all, length_map, length_seq. reflexivity. Qed.

(** X1.  [hexToBuffer] accepts exactly the strings made of an even number of
    hexadecimal digits (the empty string included) and throws
    [InvalidHexString] on every other string; an accepted string of [2n]
    digits yields [n] bytes. *)
Theorem hexToBuffer_accepts_even_hex (hex : string) :
  ((exists buffer, hexToBuffer hex = Ok buffer) <->
   isHexString hex = true /\ (String.length hex mod 2 = 0)%nat)
  /\ ((forall buffer, hexToBuffer hex <> Ok buffer) ->
      hexToBuffer hex = Throw InvalidHexString)
  /\ (forall buffer,
        hexToBuffer hex = Ok buffer ->
        (2 * List.length buffer = String.length hex)%nat).
Proof.
  unfold hexToBuffer.
  destruct (isHexString hex) eqn:Hhex;
    destruct (Nat.eqb (String.length hex mod 2) 0) eqn:Heven; cbn [negb orb].
  - apply Nat.eqb_eq in Heven. split; [|split].
    + split; [intros _; split; [reflexivity | exact Heven]|].
      intros _. eexists. reflexivity.
    + intros H. exfalso. eapply H. reflexivity.
    + intros buffer H. injection H as <-.
      rewrite forRange_store_length.
      pose proof (Nat.div_mod_eq (String.length hex) 2) as Hdiv.
      change (fst (Nat.divmod (String.length hex) 1 0 1))
        with (String.length hex / 2)%nat.
      lia.
  - apply Nat.eqb_neq in Heven. split; [|split].
    + split; [intros [b H]; discriminate | intros [_ H]; contradiction].
    + reflexivity.
    + intros buffer H. discriminate.
  - split; [|split].
    + split; [intros [b H]; discriminate | intros [H _]; discriminate].
    + reflexivity.
    + intros buffer H. discriminate.
  - split; [|split].
    + split; [intros [b H]; discriminate | intros [H _]; discriminate].
    + reflexivity.
    + intros buffer H. discriminate.
Qed.

Lemma hexToBuffer_accepts_even_hex_witness :
  hexToBuffer "0a1B" = Ok [x0a; x1b]
  /\ (2 * List.length [x0a; x1b] = String.length "0a1B")%nat.
Proof.
  split; [reflexivity|].
  exact (proj2 (proj2 (hexToBuffer_accepts_even_hex "0a1B")) [x0a; x1b] eq_refl).
Defined.

Lemma hexDigitChar_isHex (d : N) : (d < 16)%N -> isHexDigit (hexDigitChar d) = true.
Proof.
  intros H.
  assert (Hc : (d = 0 \/ d = 1 \/ d = 2 \/ d = 3 \/ d = 4 \/ d = 5 \/ d = 6 \/
                d = 7 \/ d = 8 \/ d = 9 \/ d = 10 \/ d = 11 \/ d = 12 \/ d = 13 \/
                d = 14 \/ d = 15)%N) by lia.
  repeat (destruct Hc as [->|Hc]; [reflexivity|]). subst d. reflexivity.
Qed.

Lemma byte_hex_roundtrip (b : byte) :
  storeNumber
    (parseInt16
       (String (hexDigitChar (Byte.to_N b / 16))
          (String (hexDigitChar (Byte.to_N b mod 16)) EmptyString)))
  = b.
Proof. destruct b; vm_compute; reflexivity. Qed.

Lemma bufferToHex_length (buffer : Uint8Array) :
  String.length (bufferToHex buffer) = (2 * List.length buffer)%nat.
Proof.
  induction buffer as [|b rest IH]; simpl; [reflexivity|]. rewrite IH. lia.
Qed.

Lemma bufferToHex_isHex (buffer : Uint8Array) :
  isHexString (bufferToHex buffer) = true.
Proof.
  unfold isHexString.
  induction buffer as [|b rest IH]; simpl; [reflexivity|].
  rewrite IH.
  rewrite !hexDigitChar_isHex; [reflexivity | |].
  - apply N.mod_lt. discriminate.
  - pose proof (to_N_lt_256 b).
    apply N.Div0.div_lt_upper_bound. exact H.
Qed.

(** The bytes read back from the hexadecimal text of [buffer]. *)
Lemma decoded_bytes_of_hex (buffer : Uint8Array) :
  map (fun i =>
         storeNumber (parseInt16 (substring (i * 2) 2 (bufferToHex buffer))))
    (seq 0 (List.length buffer))
  = buffer.
Proof.
  induction buffer as [|b rest IH]; [reflexivity|].
  cbn [List.length seq map]. f_equal.
  - cbn [Nat.mul bufferToHex substring].
    replace (substring 0 0 (bufferToHex rest)) with EmptyString
      by (destruct (bufferToHex rest); reflexivity).
    apply byte_hex_roundtrip.
  - rewrite <- seq_shift, map_map.
    rewrite <- IH at 2. apply map_ext. intros i.
    cbn [Nat.mul Nat.add bufferToHex substring]. reflexivity.
Qed.

(** X2.  Decoding inverts the authoring script's encoding: for every byte
    array, [hexToBuffer (bufferToHex buffer)] returns the array itself. *)
Theorem hexToBuffer_bufferToHex (buffer : Uint8Array) :
  hexToBuffer (bufferToHex buffer) = Ok buffer.
Proof.
  unfold hexToBuffer.
  rewrite bufferToHex_isHex, bufferToHex_length.
  replace (2 * List.length buffer mod 2)%nat with 0%nat
    by (rewrite Nat.mul_comm, Nat.Div0.mod_mul; reflexivity).
  cbn [negb orb Nat.eqb].
  replace (2 * List.length buffer / 2)%nat with (List.length buffer)
    by (rewrite Nat.mul_comm, Nat.div_mul; [reflexivity | discriminate]).
  rewrite forRange_store_all. f_equal. apply decoded_bytes_of_hex.
Qed.

Lemma ToUint8_of_ascii (c : ascii) : ToUint8 (N_of_ascii c) = byte_of_ascii c.
Proof.
  destruct c as [[] [] [] [] [] [] [] []]; vm_compute; reflexivity.
Qed.

Lemma char_codes_are_bytes (binaryString : string) :
  map (fun i => ToUint8 (charCodeAt binaryString i))
    (seq 0 (String.length binaryString))
  = list_byte_of_string binaryString.
Proof.
  induction binaryString as [|c rest IH]; [reflexivity|].
  cbn [String.length seq map]. unfold list_byte_of_string in *.
  cbn [list_ascii_of_string map]. f_equal.
  - apply ToUint8_of_ascii.
  - rewrite <- seq_shift, map_map. rewrite <- IH.
    apply map_ext. intros i. reflexivity.
Qed.

Lemma base64ToBuffer_run (P : Platform) (base64 : string) :
  base64ToBuffer P base64
  = match atob P base64 with
    | Ok binaryString => Ok (list_byte_of_string binaryString)
    | Throw e => Throw e
    end.
Proof.
  unfold base64ToBuffer. destruct (atob P base64) as [binaryString|e];
    [|reflexivity].
  rewrite forRange_store_all, char_codes_are_bytes. reflexivity.
Qed.

(** X3.  [base64ToBuffer] fails exactly when [atob] does, with [atob]'s
    exception; otherwise it returns one byte per character of the binary
    string [atob] produced, in order. *)
Theorem base64ToBuffer_bytes_of_atob (P : Platform) (base64 : string) :
  (forall binaryString,
     atob P base64 = Ok binaryString ->
     base64ToBuffer P base64 = Ok (list_byte_of_string binaryString) /\
     List.length (list_byte_of_string binaryString) = String.length binaryString)
  /\ (forall e, atob P base64 = Throw e -> base64ToBuffer P base64 = Throw e)
  /\ (forall e, base64ToBuffer P base64 = Throw e -> atob P base64 = Throw e).
Proof.
  rewrite base64ToBuffer_run. split; [|split].
  - intros binaryString H. rewrite H. split; [reflexivity|].
    rewrite <- char_codes_are_bytes, length_map, length_seq. reflexivity.
  - intros e H. rewrite H. reflexivity.
  - intros e. destruct (atob P base64); [discriminate|].
    intros H. injection H as ->. reflexivity.
Qed.

Lemma base64ToBuffer_bytes_of_atob_witness :
  base64ToBuffer Demo.platform "2#A" = Ok [x32; x23; x41].
Proof.
  exact (proj1 (proj1 (base64ToBuffer_bytes_of_atob Demo.platform "2#A")
                  "2#A"%string eq_refl)).
Defined.

(** ** The two derivations *)

Lemma hexToBuffer_throws_only_invalid_hex (hex : string) (e : Exn) :
  hexToBuffer hex = Throw e -> e = InvalidHexString.
Proof.
  unfold hexToBuffer.
  destruct (negb (isHexString hex) || negb (Nat.eqb (String.length hex mod 2) 0));
    [intros H; injection H as <-; reflexivity | discriminate].
Qed.

Lemma xor5c_byte (b : byte) :
  ToUint8 (N.lxor (Byte.to_N (ToUint8 (N.lxor (Byte.to_N b) 0x5c))) 0x5c) = b
  /\ ToUint8 (N.lxor (Byte.to_N b) 0x5c) <> b.
Proof. destruct b; vm_compute; (split; [reflexivity | discriminate]). Qed.

(** X4.  The salt of the integrity key never coincides with the salt of the
    encryption key: [xorSaltLoop] keeps the length, changes every byte, so it
    differs from a non-empty salt, and applied twice gives the salt back. *)
Theorem xorSaltLoop_separates_salts (salt : Uint8Array) :
  List.length (xorSaltLoop salt) = List.length salt
  /\ xorSaltLoop (xorSaltLoop salt) = salt
  /\ (forall i, (i < List.length salt)%nat ->
        nth i (xorSaltLoop salt) x00 <> nth i salt x00)
  /\ (salt <> [] -> xorSaltLoop salt <> salt).
Proof.
  rewrite !xorSaltLoop_map. split; [apply length_map|]. split; [|split].
  - rewrite map_map.
    induction salt as [|b rest IH]; [reflexivity|].
    cbn [map]. rewrite IH. f_equal. apply xor5c_byte.
  - intros i Hi. rewrite (nth_map_in_range _ x00 x00) by exact Hi.
    apply xor5c_byte.
  - destruct salt as [|b rest]; [intros H; now elim H|].
    intros _ H. cbn [map] in H. injection H as Hb _.
    exact (proj2 (xor5c_byte b) Hb).
Qed.

Lemma xorSaltLoop_separates_salts_witness :
  xorSaltLoop [xaa; x00; x5c] = [xf6; x5c; x00]
  /\ xorSaltLoop [xaa; x00; x5c] <> [xaa; x00; x5c].
Proof.
  split; [reflexivity|].
  apply (proj2 (proj2 (proj2 (xorSaltLoop_separates_salts [xaa; x00; x5c])))).
  discriminate.
Defined.

(** X5.  Both derivations succeed on exactly the salt strings [hexToBuffer]
    accepts.  On such a string each makes exactly one PBKDF2 call; on any
    other string each throws [InvalidHexString] without calling the platform. *)
Theorem derivations_succeed_iff_salt_decodes (passphrase saltHex : string) :
  (isOk (outcome (deriveKey passphrase saltHex)) = isOk (hexToBuffer saltHex))
  /\ (isOk (outcome (deriveHmacKey passphrase saltHex)) = isOk (hexToBuffer saltHex))
  /\ (isOk (hexToBuffer saltHex) = true ->
      List.length (events (deriveKey passphrase saltHex)) = 1%nat /\
      List.length (events (deriveHmacKey passphrase saltHex)) = 1%nat)
  /\ (isOk (hexToBuffer saltHex) = false ->
      outcome (deriveKey passphrase saltHex) = Throw InvalidHexString /\
      outcome (deriveHmacKey passphrase saltHex) = Throw InvalidHexString /\
      events (deriveKey passphrase saltHex) = [] /\
      events (deriveHmacKey passphrase saltHex) = []).
Proof.
  pose proof (hexToBuffer_throws_only_invalid_hex saltHex) as Hthrow.
  unfold outcome, events, deriveKey, deriveHmacKey, importPasswordKey,
    subtle_importKey, subtle_deriveKey, bind, liftR, emit, ret.
  destruct (hexToBuffer saltHex) as [salt|e] eqn:E; cbn.
  - repeat split; try reflexivity; discriminate.
  - rewrite (Hthrow e eq_refl). repeat split; try reflexivity; discriminate.
Qed.

Lemma derivations_succeed_iff_salt_decodes_witness :
  outcome (deriveKey Demo.passphrase "xyz") = Throw InvalidHexString
  /\ events (deriveHmacKey Demo.passphrase "xyz") = [].
Proof.
  destruct (derivations_succeed_iff_salt_decodes Demo.passphrase "xyz")
    as (_ & _ & _ & Hbad).
  destruct (Hbad eq_refl) as (H1 & _ & _ & H4).
  split; [exact H1 | exact H4].
Defined.

(** ** Decrypting one document *)

(** X6.  [decryptData] reaches [crypto.subtle.decrypt] only with a decoded
    nonce and a decoded payload: a nonce that is not hexadecimal fails with
    [InvalidHexString], a payload [atob] rejects fails with [atob]'s
    exception, in both cases without any platform call.  Otherwise there is
    exactly one call, for AES-GCM with the decoded nonce and a 128-bit tag,
    and the result is the decoded plaintext or the platform's exception. *)
Theorem decryptData_decodes_before_decrypting (P : Platform) (key : CryptoKey)
    (ivHex encryptedBase64 : string) :
  (isOk (hexToBuffer ivHex) = false ->
   outcome (decryptData P key ivHex encryptedBase64) = Throw InvalidHexString /\
   events (decryptData P key ivHex encryptedBase64) = [])
  /\ (forall iv e,
        hexToBuffer ivHex = Ok iv ->
        atob P encryptedBase64 = Throw e ->
        outcome (decryptData P key ivHex encryptedBase64) = Throw e /\
        events (decryptData P key ivHex encryptedBase64) = [])
  /\ (forall iv binaryString,
        hexToBuffer ivHex = Ok iv ->
        atob P encryptedBase64 = Ok binaryString ->
        let params :=
          {| gcm_name := "AES-GCM"; gcm_iv := iv; gcm_tagLength := 128 |} in
        events (decryptData P key ivHex encryptedBase64) = [EvDecrypt key params] /\
        outcome (decryptData P key ivHex encryptedBase64)
        = match subtle_decrypt P params key (list_byte_of_string binaryString) with
          | Ok plaintext => Ok (TextDecoder_decode P plaintext)
          | Throw e => Throw e
          end).
Proof.
  unfold outcome, events, decryptData, decrypt, bind, liftR, emit, ret.
  rewrite base64ToBuffer_run.
  split; [|split].
  - intros H. destruct (hexToBuffer ivHex) as [iv|e] eqn:E; [discriminate|].
    rewrite (hexToBuffer_throws_only_invalid_hex ivHex e E). split; reflexivity.
  - intros iv e Hiv Hatob. rewrite Hiv, Hatob. split; reflexivity.
  - intros iv binaryString Hiv Hatob. rewrite Hiv, Hatob. cbn.
    destruct (subtle_decrypt P _ key (list_byte_of_string binaryString));
      split; reflexivity.
Qed.

Lemma decryptData_decodes_before_decrypting_witness :
  outcome (decryptData Demo.platform Demo.encryptionKey "0g" "2#A")
  = Throw InvalidHexString
  /\ outcome (decryptData Demo.platform Demo.encryptionKey
                "000102030405060708090a0b" "2# Incident Response")
     = Ok "# Incident Response"%string.
Proof.
  destruct (decryptData_decodes_before_decrypting Demo.platform
              Demo.encryptionKey "0g" "2#A") as (Hbad & _).
  split; [exact (proj1 (Hbad eq_refl))|].
  destruct (decryptData_decodes_before_decrypting Demo.platform
              Demo.encryptionKey "000102030405060708090a0b"
              "2# Incident Response") as (_ & _ & Hgood).
  destruct (Hgood (map (fun n => ToUint8 (N.of_nat n)) (seq 0 12))
              "2# Incident Response"%string eq_refl eq_refl) as (_ & Hout).
  rewrite Hout. reflexivity.
Defined.

(** ** Paths of [unlock] *)

(** X7.  While the limiter is locked, [unlock] goes no further than the gate:
    no platform call, the limiter untouched, the session's lock state, held
    documents, key and [isDecrypting] flag as they were; it reports
    RATE_LIMITED with the remaining lockout, and passphrase and manifest play
    no part in the result. *)
Theorem unlock_rate_limited_stops_at_gate (P : Platform)
    (vaultData : VaultManifest) (passphrase : string) (w : World) :
  gateClosed P w = true ->
  exists w',
    unlock P vaultData passphrase w = (Ok tt, w') /\
    limiter w' = limiter w /\
    trace w' = trace w /\
    error (store w') = Some RATE_LIMITED /\
    errorMessage (store w') = "Too many attempts. Please wait."%string /\
    lockoutRemainingMs (store w')
    = Z.max 0 (lockedUntil (limiter w) - Date_now P (Datatypes.S (ticks w))) /\
    isUnlocked (store w') = isUnlocked (store w) /\
    decryptedFiles (store w') = decryptedFiles (store w) /\
    masterKey (store w') = masterKey (store w) /\
    isDecrypting (store w') = isDecrypting (store w) /\
    forall vaultData' passphrase',
      unlock P vaultData' passphrase' w = (Ok tt, w').
Proof.
  intros Hgate. rewrite unlock_run, Hgate. eexists.
  split; [reflexivity|]. repeat split.
  intros vaultData' passphrase'. rewrite unlock_run, Hgate. reflexivity.
Qed.

Lemma unlock_rate_limited_stops_at_gate_witness :
  exists w',
    unlock Demo.platform Demo.vault Demo.passphrase (afterFailures 5) = (Ok tt, w') /\
    limiter w' = limiter (afterFailures 5) /\
    trace w' = trace (afterFailures 5) /\
    error (store w') = Some RATE_LIMITED.
Proof.
  destruct (unlock_rate_limited_stops_at_gate Demo.platform Demo.vault
              Demo.passphrase (afterFailures 5) eq_refl)
    as (w' & H1 & H2 & H3 & H4 & _).
  exists w'. repeat split; assumption.
Defined.

(** X8.  With the gate open, a manifest without salt or without documents
    makes [unlock] report VAULT_EMPTY at no cost: no attempt is recorded, no
    platform call is made, the session is neither unlocked nor otherwise
    changed, [isDecrypting] ends cleared, whatever the passphrase. *)
Theorem unlock_vault_empty_is_free (P : Platform) (vaultData : VaultManifest)
    (passphrase : string) (w : World) :
  gateClosed P w = false ->
  vaultEmpty vaultData = true ->
  exists w',
    unlock P vaultData passphrase w = (Ok tt, w') /\
    limiter w' = limiter w /\
    trace w' = trace w /\
    error (store w') = Some VAULT_EMPTY /\
    errorMessage (store w') = "No vault data available"%string /\
    isDecrypting (store w') = false /\
    isUnlocked (store w') = isUnlocked (store w) /\
    decryptedFiles (store w') = decryptedFiles (store w) /\
    masterKey (store w') = masterKey (store w) /\
    forall passphrase', unlock P vaultData passphrase' w = (Ok tt, w').
Proof.
  intros Hgate Hempty. rewrite unlock_run, Hgate, Hempty. eexists.
  split; [reflexivity|]. repeat split.
  intros passphrase'. rewrite unlock_run, Hgate, Hempty. reflexivity.
Qed.

Lemma unlock_vault_empty_is_free_witness :
  exists w',
    unlock Demo.platform
      {| salt := ""; hmac := None; generatedAt := ""; files := [Demo.incidentResponse] |}
      Demo.passphrase (afterFailures 4) = (Ok tt, w') /\
    attempts (limiter w') = 4 /\
    error (store w') = Some VAULT_EMPTY.
Proof.
  destruct (unlock_vault_empty_is_free Demo.platform
              {| salt := ""; hmac := None; generatedAt := "";
                 files := [Demo.incidentResponse] |}
              Demo.passphrase (afterFailures 4) eq_refl eq_refl)
    as (w' & H1 & H2 & _ & H4 & _).
  exists w'. split; [exact H1|]. split; [rewrite H2; reflexivity | exact H4].
Defined.

Lemma verifyVaultIntegrity_with_hmac (P : Platform) (vaultData : VaultManifest)
    (passphrase h : string) (decoded : Uint8Array) (w : World) :
  hmac vaultData = Some h ->
  isEmptyString h = false ->
  hexToBuffer (salt vaultData) = Ok decoded ->
  verifyVaultIntegrity P vaultData passphrase w
  = verifyHmac P (integrityKeyOf passphrase decoded)
      (JSON_stringify P (files vaultData)) h
      (appendTrace [EvDeriveKey (integrityParams decoded) integrityAlgorithm] w).
Proof.
  intros Hh Hne Hsalt. unfold verifyVaultIntegrity, hmacMissing.
  rewrite Hh, Hne. unfold bind at 1.
  unfold deriveHmacKey, importPasswordKey, subtle_importKey, subtle_deriveKey,
    bind, liftR, emit, ret.
  rewrite Hsalt. reflexivity.
Qed.

(** X9.  When the manifest carries a digest and the computed HMAC differs
    from it, [unlock] stops after the integrity check: its only platform
    calls are the derivation of the integrity key and one signature; the
    encryption key is not derived and nothing is decrypted.  The failure is
    INTEGRITY_FAILURE, costs one attempt and leaves the stored key alone. *)
Theorem unlock_integrity_failure_stops_before_decryption (P : Platform)
    (vaultData : VaultManifest) (passphrase h : string)
    (decoded expected signature : Uint8Array) (w : World) :
  gateClosed P w = false ->
  vaultEmpty vaultData = false ->
  hmac vaultData = Some h ->
  isEmptyString h = false ->
  hexToBuffer (salt vaultData) = Ok decoded ->
  hexToBuffer h = Ok expected ->
  subtle_sign P (integrityKeyOf passphrase decoded)
    (TextEncoder_encode (JSON_stringify P (files vaultData))) = Ok signature ->
  signature <> expected ->
  exists w',
    unlock P vaultData passphrase w = (Ok tt, w') /\
    penalised INTEGRITY_FAILURE w w' /\
    trace w'
    = trace w ++
      [EvDeriveKey (integrityParams decoded) integrityAlgorithm;
       EvSign (integrityKeyOf passphrase decoded)] /\
    masterKey (store w') = masterKey (store w).
Proof.
  intros Hgate Hempty Hh Hne Hsalt Hexp Hsig Hdiff.
  assert (Hrun : forall w0,
            verifyVaultIntegrity P vaultData passphrase w0
            = (Ok false,
               appendTrace
                 [EvDeriveKey (integrityParams decoded) integrityAlgorithm;
                  EvSign (integrityKeyOf passphrase decoded)] w0)).
  { intros w0.
    rewrite (verifyVaultIntegrity_with_hmac P vaultData passphrase h decoded w0
               Hh Hne Hsalt).
    rewrite verifyHmac_run, Hexp, Hsig, appendTrace_app. cbn [app].
    destruct (Nat.eqb (List.length signature) (List.length expected)) eqn:Hlen;
      [|reflexivity].
    apply Nat.eqb_eq in Hlen.
    destruct (N.eqb (xorAccumulate signature expected) 0) eqn:Hacc;
      [|reflexivity].
    apply N.eqb_eq in Hacc.
    apply (xorAccumulate_zero_iff _ _ Hlen) in Hacc. contradiction. }
  assert (Hout : outcome (verifyVaultIntegrity P vaultData passphrase) = Ok false)
    by (unfold outcome; rewrite Hrun; reflexivity).
  assert (Hev : events (verifyVaultIntegrity P vaultData passphrase)
                = [EvDeriveKey (integrityParams decoded) integrityAlgorithm;
                   EvSign (integrityKeyOf passphrase decoded)])
    by (unfold events; rewrite Hrun; reflexivity).
  rewrite unlock_run, Hgate, Hempty. cbv zeta. rewrite Hout, Hev.
  eexists. split; [reflexivity|].
  destruct (rejected_penalised P INTEGRITY_FAILURE false
              [EvDeriveKey (integrityParams decoded) integrityAlgorithm;
               EvSign (integrityKeyOf passphrase decoded)] w)
    as (Hpen & Htrace & _).
  split; [exact Hpen|]. split; [exact Htrace|].
  unfold rejected. rewrite recordAttempt_run.
  destruct (5 <=? _); reflexivity.
Qed.

Lemma unlock_integrity_failure_stops_before_decryption_witness :
  exists w',
    unlock Demo.platform Demo.vaultTampered Demo.passphrase initialWorld
    = (Ok tt, w') /\
    penalised INTEGRITY_FAILURE initialWorld w' /\
    List.length (trace w') = 2%nat.
Proof.
  destruct (unlock_integrity_failure_stops_before_decryption Demo.platform
              Demo.vaultTampered Demo.passphrase "da34" (repeat xaa 16)
              [xda; x34] [xda; x33] initialWorld
              eq_refl eq_refl eq_refl eq_refl eq_refl eq_refl eq_refl)
    as (w' & Hrun & Hpen & Htrace & _).
  - discriminate.
  - exists w'. split; [exact Hrun|]. split; [exact Hpen|].
    rewrite Htrace. reflexivity.
Defined.

(** X10.  A digest field that is not hexadecimal is not told apart from a
    wrong passphrase: with a salt that decodes, [unlock] derives the
    integrity key, fails to decode the digest before signing anything, and
    reports INVALID_PASSPHRASE at the cost of one attempt. *)
Theorem unlock_malformed_digest_counts_as_wrong_passphrase (P : Platform)
    (vaultData : VaultManifest) (passphrase h : string) (decoded : Uint8Array)
    (w : World) :
  gateClosed P w = false ->
  vaultEmpty vaultData = false ->
  hmac vaultData = Some h ->
  isEmptyString h = false ->
  hexToBuffer (salt vaultData) = Ok decoded ->
  isOk (hexToBuffer h) = false ->
  exists w',
    unlock P vaultData passphrase w = (Ok tt, w') /\
    penalised INVALID_PASSPHRASE w w' /\
    trace w'
    = trace w ++ [EvDeriveKey (integrityParams decoded) integrityAlgorithm].
Proof.
  intros Hgate Hempty Hh Hne Hsalt Hbad.
  assert (Hrun : forall w0,
            verifyVaultIntegrity P vaultData passphrase w0
            = (Throw InvalidHexString,
               appendTrace
                 [EvDeriveKey (integrityParams decoded) integrityAlgorithm] w0)).
  { intros w0.
    rewrite (verifyVaultIntegrity_with_hmac P vaultData passphrase h decoded w0
               Hh Hne Hsalt).
    rewrite verifyHmac_run.
    destruct (hexToBuffer h) as [expected|e] eqn:E; [discriminate|].
    rewrite (hexToBuffer_throws_only_invalid_hex h e E). reflexivity. }
  assert (Hout : outcome (verifyVaultIntegrity P vaultData passphrase)
                 = Throw InvalidHexString)
    by (unfold outcome; rewrite Hrun; reflexivity).
  assert (Hev : events (verifyVaultIntegrity P vaultData passphrase)
                = [EvDeriveKey (integrityParams decoded) integrityAlgorithm])
    by (unfold events; rewrite Hrun; reflexivity).
  rewrite unlock_run, Hgate, Hempty. cbv zeta. rewrite Hout, Hev.
  eexists. split; [reflexivity|].
  destruct (rejected_penalised P INVALID_PASSPHRASE true
              [EvDeriveKey (integrityParams decoded) integrityAlgorithm] w)
    as (Hpen & Htrace & _).
  split; [exact Hpen | exact Htrace].
Qed.

Lemma unlock_malformed_digest_counts_as_wrong_passphrase_witness :
  exists w',
    unlock Demo.platform
      {| salt := Demo.saltHex; hmac := Some "da3"%string; generatedAt := "";
         files := [Demo.incidentResponse] |}
      Demo.passphrase initialWorld = (Ok tt, w') /\
    penalised INVALID_PASSPHRASE initialWorld w' /\
    List.length (trace w') = 1%nat.
Proof.
  destruct (unlock_malformed_digest_counts_as_wrong_passphrase Demo.platform
              {| salt := Demo.saltHex; hmac := Some "da3"%string;
                 generatedAt := ""; files := [Demo.incidentResponse] |}
              Demo.passphrase "da3" (repeat xaa 16) initialWorld
              eq_refl eq_refl eq_refl eq_refl eq_refl eq_refl)
    as (w' & Hrun & Hpen & Htrace).
  exists w'. split; [exact Hrun|]. split; [exact Hpen|].
  rewrite Htrace. reflexivity.
Defined.

(** X11.  [unlock] never lets an exception escape, and when it returns the
    session's flags are consistent: past the gate [isDecrypting] is cleared;
    the message is always the one of the error code; no error is shown
    exactly when the attempt went all the way, and then the session is
    unlocked. *)
Theorem unlock_ends_in_consistent_state (P : Platform)
    (vaultData : VaultManifest) (passphrase : string) (w : World) :
  exists w',
    unlock P vaultData passphrase w = (Ok tt, w') /\
    (gateClosed P w = false -> isDecrypting (store w') = false) /\
    errorMessage (store w') = getErrorMessage (error (store w')) /\
    (error (store w') = None <-> succeeds P vaultData passphrase w = true) /\
    (succeeds P vaultData passphrase w = true -> isUnlocked (store w') = true).
Proof.
  rewrite unlock_run. unfold succeeds. eexists. split; [reflexivity|].
  assert (Hrej : forall code dropKey evs,
            isDecrypting
              (store (rejected P code dropKey (appendTrace evs (entered w))))
            = false /\
            errorMessage
              (store (rejected P code dropKey (appendTrace evs (entered w))))
            = getErrorMessage
                (error (store (rejected P code dropKey
                                 (appendTrace evs (entered w))))) /\
            error (store (rejected P code dropKey (appendTrace evs (entered w))))
            <> None).
  { intros code dropKey evs.
    destruct (rejected_penalised P code dropKey evs w)
      as ((_ & Herr & Hmsg & Hdec & _) & _).
    rewrite Hmsg, Herr, Hdec. repeat split. discriminate. }
  destruct (gateClosed P w).
  { cbn. repeat split; try discriminate. }
  destruct (vaultEmpty vaultData).
  { cbn. repeat split; try discriminate. }
  cbv zeta. cbn [negb andb].
  destruct (outcome (verifyVaultIntegrity P vaultData passphrase)) as [[|]|e].
  - destruct (outcome (deriveKey passphrase (salt vaultData))) as [key|e].
    + destruct (outcome (decryptLoop P key (files vaultData) []))
        as [decrypted|e].
      * cbn. repeat split.
      * destruct (Hrej INVALID_PASSPHRASE true
                    (events (verifyVaultIntegrity P vaultData passphrase) ++
                     events (deriveKey passphrase (salt vaultData)) ++
                     events (decryptLoop P key (files vaultData) [])))
          as (H1 & H2 & H3).
        cbn [isOk]. repeat split; try assumption; try discriminate;
          try (intros H; contradiction).
    + destruct (Hrej INVALID_PASSPHRASE true
                  (events (verifyVaultIntegrity P vaultData passphrase) ++
                   events (deriveKey passphrase (salt vaultData))))
        as (H1 & H2 & H3).
      repeat split; try assumption; try discriminate;
        try (intros H; contradiction).
  - destruct (Hrej INTEGRITY_FAILURE false
                (events (verifyVaultIntegrity P vaultData passphrase)))
      as (H1 & H2 & H3).
    repeat split; try assumption; try discriminate;
      try (intros H; contradiction).
  - destruct (Hrej INVALID_PASSPHRASE true
                (events (verifyVaultIntegrity P vaultData passphrase)))
      as (H1 & H2 & H3).
    repeat split; try assumption; try discriminate;
      try (intros H; contradiction).
Qed.

Lemma unlock_ends_in_consistent_state_witness :
  exists w',
    unlock Demo.platform Demo.vault Demo.passphrase inFlightWorld = (Ok tt, w') /\
    isDecrypting (store w') = false /\
    error (store w') = None /\
    isUnlocked (store w') = true.
Proof.
  destruct (unlock_ends_in_consistent_state Demo.platform Demo.vault
              Demo.passphrase inFlightWorld)
    as (w' & Hrun & Hdec & _ & Herr & Hunl).
  exists w'. split; [exact Hrun|]. split; [exact (Hdec eq_refl)|].
  split; [exact (proj2 Herr eq_refl) | exact (Hunl eq_refl)].
Defined.

(** ** What every reachable state satisfies *)

Lemma secureWipeBuffer_frame (P : Platform) (buffer : Uint8Array) (w : World) :
  limiter (snd (secureWipeBuffer P buffer w)) = limiter w
  /\ store (snd (secureWipeBuffer P buffer w)) = store w
  /\ ticks (snd (secureWipeBuffer P buffer w)) = ticks w
  /\ (forall e, fst (secureWipeBuffer P buffer w) = Throw e ->
      e = QuotaExceededError).
Proof.
  unfold secureWipeBuffer.
  destruct (0 <? List.length buffer)%nat; [|repeat split; discriminate].
  unfold bind, getRandomValues, ret.
  destruct (65536 <? Z.of_nat (List.length buffer)); cbn.
  - repeat split. intros e H. injection H as <-. reflexivity.
  - repeat split. discriminate.
Qed.

Lemma sameButFiles_refl (s : AuthState) : sameButFiles s s.
Proof. unfold sameButFiles. repeat split. Qed.

Lemma sameButFiles_trans (s1 s2 s3 : AuthState) :
  sameButFiles s1 s2 -> sameButFiles s2 s3 -> sameButFiles s1 s3.
Proof.
  unfold sameButFiles.
  intros (A1 & A2 & A3 & A4 & A5 & A6) (B1 & B2 & B3 & B4 & B5 & B6).
  repeat split; congruence.
Qed.

(** The wiping loop, quota or not: it touches neither limiter nor clock, and
    nothing in the store but the held documents; the only exception it can
    raise is the quota one. *)
Lemma wipeLoop_frame (P : Platform) (files : list DecryptedFile.t) :
  forall i w,
    limiter (snd (wipeLoop P i files w)) = limiter w
    /\ ticks (snd (wipeLoop P i files w)) = ticks w
    /\ sameButFiles (store w) (store (snd (wipeLoop P i files w)))
    /\ (fst (wipeLoop P i files w) = Ok tt
        \/ fst (wipeLoop P i files w) = Throw QuotaExceededError).
Proof.
  induction files as [|file rest IH]; intros i w.
  - cbn. repeat split; try apply sameButFiles_refl. left. reflexivity.
  - destruct (secureWipeBuffer_frame P
                (TextEncoder_encode (DecryptedFile.content file)) w)
      as (Hl & Hs & Ht & He).
    destruct (secureWipeBuffer P
                (TextEncoder_encode (DecryptedFile.content file)) w)
      as [[zeroed|e] w1] eqn:Hrun; cbn [fst snd] in *.
    + pose (w2 := {| limiter := limiter w1;
                     store :=
                       decryptedFiles_
                         (firstn i (decryptedFiles (store w1)) ++
                          match skipn i (decryptedFiles (store w1)) with
                          | [] => []
                          | f :: tl => DecryptedFile.set_content "" f :: tl
                          end) (store w1);
                     ticks := ticks w1; drawn := drawn w1; trace := trace w1 |}).
      assert (E : wipeLoop P i (file :: rest) w = wipeLoop P (Datatypes.S i) rest w2).
      { cbn [wipeLoop]. unfold bind at 1. rewrite Hrun. reflexivity. }
      rewrite E.
      destruct (IH (Datatypes.S i) w2) as (Hl2 & Ht2 & Hs2 & Hr2).
      split; [rewrite Hl2; exact Hl|]. split; [rewrite Ht2; exact Ht|].
      split; [|exact Hr2].
      eapply sameButFiles_trans; [|exact Hs2].
      subst w2. cbn [store]. rewrite Hs. unfold sameButFiles. repeat split.
    + assert (E : wipeLoop P i (file :: rest) w = (Throw e, w1)).
      { cbn [wipeLoop]. unfold bind at 1. rewrite Hrun. reflexivity. }
      rewrite E. cbn [fst snd].
      split; [exact Hl|]. split; [exact Ht|]. split.
      * rewrite Hs. apply sameButFiles_refl.
      * right. rewrite (He e eq_refl). reflexivity.
Qed.

(** [wipe] in full generality: limiter and clock are never touched; either it
    returns with the session cleared, or the quota exception escapes from a
    session that held documents and whose other fields are left as they were. *)
Lemma wipe_general (P : Platform) (w : World) :
  limiter (snd (wipe P w)) = limiter w
  /\ ticks (snd (wipe P w)) = ticks w
  /\ ((fst (wipe P w) = Ok tt /\ cleared (store (snd (wipe P w))))
      \/ (fst (wipe P w) = Throw QuotaExceededError /\
          decryptedFiles (store w) <> [] /\
          sameButFiles (store w) (store (snd (wipe P w))))).
Proof.
  unfold wipe, bind, get.
  destruct (decryptedFiles (store w)) as [|file rest] eqn:Hfiles.
  - cbn. repeat split. left. unfold cleared. repeat split.
  - change (0 <? List.length (file :: rest))%nat with true. cbv iota.
    destruct (wipeLoop_frame P (file :: rest) 0%nat w) as (Hl & Ht & Hs & Hr).
    destruct (wipeLoop P 0 (file :: rest) w) as [[[]|e] w1] eqn:Hrun;
      cbn [fst snd] in *.
    + unfold set. cbn. repeat split; try assumption.
      left. unfold cleared. repeat split.
    + split; [exact Hl|]. split; [exact Ht|]. right.
      destruct Hr as [Hr|Hr]; [discriminate|]. injection Hr as ->.
      split; [reflexivity|]. split; [discriminate | exact Hs].
Qed.

Lemma limiterInv_frame (P : Platform) (w w' : World) :
  limiter w' = limiter w -> (ticks w <= ticks w')%nat ->
  limiterInv P w -> limiterInv P w'.
Proof.
  unfold limiterInv. intros Hl Ht (H1 & H2 & H3). rewrite Hl.
  split; [exact H1|]. split; [exact H2|].
  destruct H3 as [H3|(k & Hk & Hb)]; [left; exact H3|].
  right. exists k. split; [lia | exact Hb].
Qed.

Lemma limiterInv_recordAttempt (P : Platform) (w : World) :
  limiterInv P w -> limiterInv P (snd (recordAttempt P w)).
Proof.
  unfold limiterInv. intros (H1 & H2 & H3). rewrite recordAttempt_run.
  cbn [snd].
  destruct (5 <=? attempts (limiter w) + 1) eqn:E;
    cbn [limiterStep limiter attempts lockedUntil ticks].
  - apply Z.leb_le in E. split; [lia|]. split; [intros; lia|].
    right. exists (Datatypes.S (ticks w)). split; [lia|].
    pose proof (Z.le_min_r (15000 * 2 ^ (attempts (limiter w) + 1 - 5)) 300000).
    lia.
  - apply Z.leb_gt in E. split; [lia|].
    assert (H0 : lockedUntil (limiter w) = 0) by (apply H2; lia).
    split; [intros _; exact H0 | left; exact H0].
Qed.

Lemma limiterInv_rejected (P : Platform) (code : AuthErrorCode) (dropKey : bool)
    (evs : list Event) (w : World) :
  limiterInv P w ->
  limiterInv P (rejected P code dropKey (appendTrace evs (entered w))).
Proof.
  intros H.
  apply (limiterInv_frame P
           (snd (recordAttempt P (appendTrace evs (entered w))))).
  - reflexivity.
  - unfold rejected. cbn [ticks]. lia.
  - apply limiterInv_recordAttempt.
    apply (limiterInv_frame P w); [reflexivity | cbn; lia | exact H].
Qed.

Lemma limiterInv_unlock (P : Platform) (vaultData : VaultManifest)
    (passphrase : string) (w : World) :
  limiterInv P w -> limiterInv P (snd (unlock P vaultData passphrase w)).
Proof.
  intros H. rewrite unlock_run. cbn [snd].
  destruct (gateClosed P w).
  { apply (limiterInv_frame P w); [reflexivity | cbn; lia | exact H]. }
  destruct (vaultEmpty vaultData).
  { apply (limiterInv_frame P w); [reflexivity | cbn; lia | exact H]. }
  cbv zeta.
  destruct (outcome (verifyVaultIntegrity P vaultData passphrase)) as [[|]|e];
    try (apply limiterInv_rejected; exact H).
  destruct (outcome (deriveKey passphrase (salt vaultData))) as [key|e];
    try (apply limiterInv_rejected; exact H).
  destruct (outcome (decryptLoop P key (files vaultData) [])) as [decrypted|e];
    try (apply limiterInv_rejected; exact H).
  unfold limiterInv. cbn. repeat split; lia.
Qed.

Lemma limiterInv_perform (P : Platform) (vaultData : VaultManifest) (a : Action)
    (w : World) :
  limiterInv P w -> limiterInv P (perform P vaultData a w).
Proof.
  intros H. destruct a as [passphrase| | | |passphrase displayLockout];
    cbn [perform].
  - apply limiterInv_unlock. exact H.
  - destruct (wipe_general P w) as (Hl & Ht & _).
    apply (limiterInv_frame P w); [exact Hl | rewrite Ht; lia | exact H].
  - unfold updateLockoutTime, bind. rewrite getRemainingLockoutMs_run.
    apply (limiterInv_frame P w); [reflexivity | cbn; lia | exact H].
  - rewrite getRemainingLockoutMs_run.
    apply (limiterInv_frame P w); [reflexivity | cbn; lia | exact H].
  - unfold handleSubmit, bind, get.
    destruct (isEmptyString passphrase || isDecrypting (store w)
              || (0 <? displayLockout)); [exact H|].
    pose proof (limiterInv_unlock P vaultData passphrase w H) as Hu.
    destruct (unlock P vaultData passphrase w) as [[[]|e] w1]; exact Hu.
Qed.

Lemma limiterInv_run (P : Platform) (vaultData : VaultManifest)
    (actions : list Action) :
  forall w, limiterInv P w -> limiterInv P (run P vaultData actions w).
Proof.
  induction actions as [|a rest IH]; intros w H; [exact H|].
  cbn [run fold_left]. apply IH. apply limiterInv_perform. exact H.
Qed.

Lemma limiterInv_initial (P : Platform) : limiterInv P initialWorld.
Proof. unfold limiterInv. cbn. repeat split; lia. Qed.

(** X12.  In every state the page reaches from its initial state by unlock
    attempts, wipes, submits and countdown polls, the attempt count is not
    negative and, below five recorded failures, no lockout deadline is set:
    the gate is open (the clock being non-negative). *)
Theorem never_locked_below_five_failures (P : Platform)
    (vaultData : VaultManifest) (actions : list Action) :
  let w := run P vaultData actions initialWorld in
  0 <= attempts (limiter w)
  /\ (attempts (limiter w) < 5 ->
      lockedUntil (limiter w) = 0 /\
      (0 <= Date_now P (ticks w) -> fst (isLocked P w) = Ok false)).
Proof.
  intros w.
  destruct (limiterInv_run P vaultData actions initialWorld
              (limiterInv_initial P)) as (H1 & H2 & _).
  fold w in H1, H2. split; [exact H1|].
  intros Hlt. split; [exact (H2 Hlt)|].
  intros Hnow. rewrite isLocked_run. cbn [fst]. f_equal.
  unfold gateClosed. rewrite (H2 Hlt). apply Z.ltb_ge. exact Hnow.
Qed.

Lemma never_locked_below_five_failures_witness :
  let w :=
    run Demo.platform Demo.vault
      [ActUnlock "a"; ActSubmit "b" 0; ActWipe; ActUnlock "c"; ActPollLockout]
      initialWorld in
  attempts (limiter w) = 3
  /\ lockedUntil (limiter w) = 0
  /\ fst (isLocked Demo.platform w) = Ok false.
Proof.
  intros w.
  destruct (never_locked_below_five_failures Demo.platform Demo.vault
              [ActUnlock "a"; ActSubmit "b" 0; ActWipe; ActUnlock "c";
               ActPollLockout]) as (_ & H).
  fold w in H.
  assert (Hatt : attempts (limiter w) = 3) by (vm_compute; reflexivity).
  split; [exact Hatt|].
  assert (Hlt : attempts (limiter w) < 5) by (rewrite Hatt; lia).
  destruct (H Hlt) as (H0 & Hgate).
  split; [exact H0|]. apply Hgate. unfold Demo.platform, Date_now. lia.
Defined.

(** X13.  On a clock that starts non-negative and never runs backwards, the
    remaining lockout reported in any reachable state lies between 0 and
    300000 ms. *)
Theorem remaining_lockout_never_exceeds_cap (P : Platform)
    (vaultData : VaultManifest) (actions : list Action) :
  0 <= Date_now P 0%nat ->
  (forall i j, (i <= j)%nat -> Date_now P i <= Date_now P j) ->
  exists remaining,
    fst (getRemainingLockoutMs P (run P vaultData actions initialWorld))
    = Ok remaining /\
    0 <= remaining <= 300000.
Proof.
  intros H0 Hmono.
  destruct (limiterInv_run P vaultData actions initialWorld
              (limiterInv_initial P)) as (_ & _ & H3).
  rewrite getRemainingLockoutMs_run. cbn [fst]. eexists. split; [reflexivity|].
  set (w := run P vaultData actions initialWorld) in *.
  assert (Hnow : 0 <= Date_now P (ticks w)).
  { pose proof (Hmono 0%nat (ticks w)). lia. }
  destruct H3 as [H3|(k & Hk & Hb)].
  - rewrite H3. lia.
  - pose proof (Hmono k (ticks w)). lia.
Qed.

Lemma remaining_lockout_never_exceeds_cap_witness :
  exists remaining,
    fst (getRemainingLockoutMs Demo.platform
           (run Demo.platform Demo.vault
              [ActUnlock "1"; ActUnlock "2"; ActUnlock "3"; ActUnlock "4";
               ActUnlock "5"; ActUnlock "6"]
              initialWorld))
    = Ok remaining /\
    0 <= remaining <= 300000.
Proof.
  apply remaining_lockout_never_exceeds_cap.
  - unfold Demo.platform, Date_now. lia.
  - intros i j Hij. unfold Demo.platform, Date_now. lia.
Defined.

Lemma rejected_session (P : Platform) (code : AuthErrorCode) (dropKey : bool)
    (evs : list Event) (w : World) :
  isUnlocked (store (rejected P code dropKey (appendTrace evs (entered w))))
  = isUnlocked (store w)
  /\ decryptedFiles (store (rejected P code dropKey (appendTrace evs (entered w))))
     = decryptedFiles (store w)
  /\ masterKey (store (rejected P code dropKey (appendTrace evs (entered w))))
     = (if dropKey then None else masterKey (store w)).
Proof.
  unfold rejected. rewrite recordAttempt_run.
  destruct (5 <=? _); destruct dropKey; repeat split.
Qed.

Lemma sessionInv_unlock (P : Platform) (vaultData : VaultManifest)
    (passphrase : string) (w : World) :
  sessionInv w -> sessionInv (snd (unlock P vaultData passphrase w)).
Proof.
  intros H. rewrite unlock_run. cbn [snd].
  destruct (gateClosed P w); [exact H|].
  destruct (vaultEmpty vaultData); [exact H|].
  cbv zeta.
  assert (Hrej : forall code dropKey evs,
            sessionInv (rejected P code dropKey (appendTrace evs (entered w)))).
  { intros code dropKey evs. unfold sessionInv.
    destruct (rejected_session P code dropKey evs w) as (Hu & Hf & Hk).
    rewrite Hu, Hf, Hk. intros Hlocked. destruct (H Hlocked) as (H1 & H2).
    split; [exact H1|]. destruct dropKey; [reflexivity | exact H2]. }
  destruct (outcome (verifyVaultIntegrity P vaultData passphrase)) as [[|]|e];
    try apply Hrej.
  destruct (outcome (deriveKey passphrase (salt vaultData))) as [key|e];
    try apply Hrej.
  destruct (outcome (decryptLoop P key (files vaultData) [])) as [decrypted|e];
    try apply Hrej.
  unfold sessionInv. cbn. discriminate.
Qed.

Lemma sessionInv_wipe (P : Platform) (w : World) :
  sessionInv w -> sessionInv (snd (wipe P w)).
Proof.
  intros H. destruct (wipe_general P w) as (_ & _ & [(_ & Hc)|(_ & Hne & Hs)]).
  - unfold sessionInv. intros _.
    destruct Hc as (_ & Hk & Hf & _). split; assumption.
  - unfold sessionInv. intros Hlocked.
    destruct Hs as (Hu & _). rewrite Hu in Hlocked.
    destruct (H Hlocked) as (Hf & _). contradiction.
Qed.

Lemma sessionInv_perform (P : Platform) (vaultData : VaultManifest) (a : Action)
    (w : World) :
  sessionInv w -> sessionInv (perform P vaultData a w).
Proof.
  intros H. destruct a as [passphrase| | | |passphrase displayLockout];
    cbn [perform].
  - apply sessionInv_unlock. exact H.
  - apply sessionInv_wipe. exact H.
  - unfold updateLockoutTime, bind. rewrite getRemainingLockoutMs_run. exact H.
  - rewrite getRemainingLockoutMs_run. exact H.
  - unfold handleSubmit, bind, get.
    destruct (isEmptyString passphrase || isDecrypting (store w)
              || (0 <? displayLockout)); [exact H|].
    pose proof (sessionInv_unlock P vaultData passphrase w H) as Hu.
    destruct (unlock P vaultData passphrase w) as [[[]|e] w1]; exact Hu.
Qed.

(** X14.  In every state the page reaches from its initial state by unlock
    attempts, wipes (completed or not), submits and countdown polls, a locked
    session holds no decrypted document and no key. *)
Theorem locked_session_holds_nothing (P : Platform) (vaultData : VaultManifest)
    (actions : list Action) :
  isUnlocked (store (run P vaultData actions initialWorld)) = false ->
  decryptedFiles (store (run P vaultData actions initialWorld)) = [] /\
  masterKey (store (run P vaultData actions initialWorld)) = None.
Proof.
  assert (Hrun : forall w, sessionInv w -> sessionInv (run P vaultData actions w)).
  { induction actions as [|a rest IH]; intros w H; [exact H|].
    cbn [run fold_left]. apply IH. apply sessionInv_perform. exact H. }
  apply Hrun. unfold sessionInv. intros _. split; reflexivity.
Qed.

Lemma locked_session_holds_nothing_witness :
  decryptedFiles
    (store (run Demo.platform Demo.vault
              [ActUnlock Demo.passphrase; ActUnlock "wrong"; ActWipe]
              initialWorld)) = []
  /\ masterKey
       (store (run Demo.platform Demo.vault
                 [ActUnlock Demo.passphrase; ActUnlock "wrong"; ActWipe]
                 initialWorld)) = None.
Proof.
  apply locked_session_holds_nothing. vm_compute. reflexivity.
Defined.

(** X15.  The handler [createWipeHandler(wipe)] copes with a failing wipe: it
    never touches the limiter; when it does not ask for a reload the session
    is cleared; it asks for a reload only if some held document exceeds the
    65536-byte quota of [getRandomValues], and never when all are within it. *)
Theorem createWipeHandler_clears_or_reloads (P : Platform) (w : World) :
  limiter (snd (createWipeHandler (wipe P) w)) = limiter w
  /\ (fst (createWipeHandler (wipe P) w) = false ->
      cleared (store (snd (createWipeHandler (wipe P) w))))
  /\ (withinQuota (store w) -> fst (createWipeHandler (wipe P) w) = false)
  /\ (fst (createWipeHandler (wipe P) w) = true -> ~ withinQuota (store w)).
Proof.
  assert (Hq : withinQuota (store w) -> fst (wipe P w) = Ok tt).
  { intros Hq. unfold withinQuota in Hq. unfold wipe, bind, get.
    destruct (decryptedFiles (store w)) as [|file rest] eqn:Hfiles;
      [reflexivity|].
    change (0 <? List.length (file :: rest))%nat with true. cbv iota.
    destruct (wipeLoop_within_quota P (file :: rest) Hq 0%nat w)
      as (w1 & Hloop & _).
    rewrite Hloop. reflexivity. }
  destruct (wipe_general P w) as (Hl & _ & Hcases).
  unfold createWipeHandler.
  destruct (wipe P w) as [[[]|e] w1] eqn:Hrun; cbn [fst snd] in *.
  - split; [exact Hl|]. split.
    + intros _. destruct Hcases as [(_ & Hc)|(Hthrow & _)];
        [exact Hc | discriminate].
    + split; [intros _; reflexivity | discriminate].
  - split; [exact Hl|]. split; [discriminate|]. split.
    + intros H. apply Hq in H. discriminate.
    + intros _ H. apply Hq in H. discriminate.
Qed.

Lemma createWipeHandler_clears_or_reloads_witness :
  fst (createWipeHandler (wipe Demo.platform) unlockedWorld) = false
  /\ cleared (store (snd (createWipeHandler (wipe Demo.platform) unlockedWorld))).
Proof.
  destruct (createWipeHandler_clears_or_reloads Demo.platform unlockedWorld)
    as (_ & Hc & Hq & _).
  assert (H : fst (createWipeHandler (wipe Demo.platform) unlockedWorld) = false).
  { apply Hq. unfold withinQuota. vm_compute. repeat constructor. discriminate. }
  split; [exact H | exact (Hc H)].
Defined.

Example createWipeHandler_reloads_on_oversized_document :
  fst (createWipeHandler (wipe Demo.platform) oversizedWorld) = true.
Proof. vm_compute. reflexivity. Qed.

(** ** Gate and countdown *)

(** X16.  Read at the same instant, the gate and the countdown agree:
    [isLocked()] answers [true] exactly when [getRemainingLockoutMs()] is
    positive; the countdown is never negative; and neither call changes the
    limiter or the session. *)
Theorem gate_and_countdown_agree (P : Platform) (w : World) :
  exists locked remaining,
    isLocked P w = (Ok locked, tick w) /\
    getRemainingLockoutMs P w = (Ok remaining, tick w) /\
    0 <= remaining /\
    (locked = true <-> 0 < remaining) /\
    (locked = false <-> remaining = 0) /\
    (locked = true ->
     remaining = lockedUntil (limiter w) - Date_now P (ticks w)).
Proof.
  rewrite isLocked_run, getRemainingLockoutMs_run.
  eexists _, _. split; [reflexivity|]. split; [reflexivity|].
  unfold gateClosed.
  destruct (Date_now P (ticks w) <? lockedUntil (limiter w)) eqn:E.
  - apply Z.ltb_lt in E. repeat split; intros; try lia; try reflexivity.
  - apply Z.ltb_ge in E. repeat split; intros; try lia; try reflexivity;
      discriminate.
Qed.

(** X17.  More failures never shorten the lockout: if one limiter has
    recorded at least as many attempts as another, and is at or past the
    fourth, the lockout its next failure sets lasts at least as long. *)
Theorem lockout_grows_with_failures (P : Platform) (w1 w2 : World) :
  4 <= attempts (limiter w1) ->
  attempts (limiter w1) <= attempts (limiter w2) ->
  lockedUntil (limiter (snd (recordAttempt P w1)))
  - Date_now P (Datatypes.S (ticks w1))
  <= lockedUntil (limiter (snd (recordAttempt P w2)))
     - Date_now P (Datatypes.S (ticks w2)).
Proof.
  intros H4 Hle. rewrite !recordAttempt_run. cbn [snd].
  destruct (5 <=? attempts (limiter w1) + 1) eqn:E1;
    [|apply Z.leb_gt in E1; lia].
  destruct (5 <=? attempts (limiter w2) + 1) eqn:E2;
    [|apply Z.leb_gt in E2; lia].
  cbn [limiterStep limiter lockedUntil].
  assert (Hpow : 2 ^ (attempts (limiter w1) + 1 - 5)
                 <= 2 ^ (attempts (limiter w2) + 1 - 5))
    by (apply Z.pow_le_mono_r; lia).
  lia.
Qed.

Lemma lockout_grows_with_failures_witness :
  lockedUntil (limiter (snd (recordAttempt Demo.platform (afterFailures 4))))
  - Date_now Demo.platform (Datatypes.S (ticks (afterFailures 4)))
  <= lockedUntil (limiter (snd (recordAttempt Demo.platform (afterFailures 6))))
     - Date_now Demo.platform (Datatypes.S (ticks (afterFailures 6))).
Proof.
  apply lockout_grows_with_failures; vm_compute; discriminate.
Defined.

(** ** Text helpers *)

Lemma flat_map_flat_map {A B C} (f : B -> list C) (g : A -> list B) (l : list A) :
  flat_map f (flat_map g l) = flat_map (fun x => flat_map f (g x)) l.
Proof.
  induction l as [|a l IH]; [reflexivity|].
  cbn [flat_map]. rewrite flat_map_app, IH. reflexivity.
Qed.

(** The five replacements of [sanitizeText], done one after the other, amount
    to one pass that escapes each code unit on its own. *)
Lemma sanitizeText_per_char (input : CodeUnits) :
  sanitizeText input = flat_map escapeChar input.
Proof.
  unfold sanitizeText, replaceAll. rewrite !flat_map_flat_map.
  apply flat_map_ext. intros x. unfold escapeChar.
  destruct (N.eqb_spec x 38) as [->|H38]; [reflexivity|].
  cbn [flat_map app].
  destruct (N.eqb_spec x 60) as [->|H60]; [reflexivity|].
  cbn [flat_map app].
  destruct (N.eqb_spec x 62) as [->|H62]; [reflexivity|].
  cbn [flat_map app].
  destruct (N.eqb_spec x 34) as [->|H34]; [reflexivity|].
  cbn [flat_map app].
  destruct (N.eqb_spec x 39) as [->|H39]; reflexivity.
Qed.

Lemma escapeChar_cases (c : N) :
  (needsEscape c = false /\ escapeChar c = [c])
  \/ (c = 38%N /\ escapeChar c = lit "&amp;")
  \/ (c = 60%N /\ escapeChar c = lit "&lt;")
  \/ (c = 62%N /\ escapeChar c = lit "&gt;")
  \/ (c = 34%N /\ escapeChar c = lit "&quot;")
  \/ (c = 39%N /\ escapeChar c = lit "&#x27;").
Proof.
  unfold escapeChar, needsEscape, isMarkup.
  destruct (N.eqb_spec c 38) as [->|H38]; [right; left; split; reflexivity|].
  destruct (N.eqb_spec c 60) as [->|H60];
    [right; right; left; split; reflexivity|].
  destruct (N.eqb_spec c 62) as [->|H62];
    [right; right; right; left; split; reflexivity|].
  destruct (N.eqb_spec c 34) as [->|H34];
    [right; right; right; right; left; split; reflexivity|].
  destruct (N.eqb_spec c 39) as [->|H39];
    [right; right; right; right; right; split; reflexivity|].
  left. split; reflexivity.
Qed.

(** X18.  The text [sanitizeText] returns contains no less-than sign, no
    greater-than sign, no double quote and no apostrophe; it is at least as
    long as the input; and a text without any of these four characters or an
    ampersand is returned unchanged. *)
Theorem sanitizeText_removes_markup (input : CodeUnits) :
  Forall (fun c => isMarkup c = false) (sanitizeText input)
  /\ (List.length input <= List.length (sanitizeText input))%nat
  /\ (Forall (fun c => needsEscape c = false) input -> sanitizeText input = input).
Proof.
  rewrite sanitizeText_per_char.
  induction input as [|c rest (IH1 & IH2 & IH3)];
    [repeat split; constructor|].
  cbn [flat_map]. split; [|split].
  - apply Forall_app. split; [|exact IH1].
    destruct (escapeChar_cases c)
      as [(Hn & ->)|[(-> & ->)|[(-> & ->)|[(-> & ->)|[(-> & ->)|(-> & ->)]]]]];
      try (repeat constructor).
    unfold needsEscape in Hn. apply orb_false_iff in Hn. exact (proj2 Hn).
  - rewrite length_app. cbn [List.length].
    destruct (escapeChar_cases c)
      as [(Hn & ->)|[(_ & ->)|[(_ & ->)|[(_ & ->)|[(_ & ->)|(_ & ->)]]]]];
      cbn; lia.
  - intros Hall. inversion Hall as [|? ? Hc Hrest]; subst.
    destruct (escapeChar_cases c)
      as [(Hn & ->)|[(-> & _)|[(-> & _)|[(-> & _)|[(-> & _)|(-> & _)]]]]];
      try discriminate Hc.
    cbn [app]. f_equal. exact (IH3 Hrest).
Qed.

Lemma sanitizeText_removes_markup_witness :
  sanitizeText (lit "a<b & 'c'") = lit "a&lt;b &amp; &#x27;c&#x27;"
  /\ sanitizeText (lit "plain text") = lit "plain text".
Proof.
  split; [reflexivity|].
  apply (proj2 (proj2 (sanitizeText_removes_markup (lit "plain text")))).
  repeat constructor.
Defined.

(** X19.  [sanitizeText] loses no information: two texts with the same
    sanitized form are the same text. *)
Theorem sanitizeText_injective (a b : CodeUnits) :
  sanitizeText a = sanitizeText b -> a = b.
Proof.
  rewrite !sanitizeText_per_char. revert b.
  induction a as [|x a IH]; intros b H.
  - destruct b as [|y b]; [reflexivity|]. cbn [flat_map] in H.
    destruct (escapeChar_cases y)
      as [(_ & E)|[(_ & E)|[(_ & E)|[(_ & E)|[(_ & E)|(_ & E)]]]]];
      rewrite E in H; discriminate H.
  - destruct b as [|y b]; cbn [flat_map] in H.
    + destruct (escapeChar_cases x)
        as [(_ & E)|[(_ & E)|[(_ & E)|[(_ & E)|[(_ & E)|(_ & E)]]]]];
        rewrite E in H; discriminate H.
    + assert (Hxy : x = y /\ flat_map escapeChar a = flat_map escapeChar b).
      { destruct (escapeChar_cases x)
          as [(Hx & Ex)|[(Hx & Ex)|[(Hx & Ex)|[(Hx & Ex)|[(Hx & Ex)|(Hx & Ex)]]]]];
        destruct (escapeChar_cases y)
          as [(Hy & Ey)|[(Hy & Ey)|[(Hy & Ey)|[(Hy & Ey)|[(Hy & Ey)|(Hy & Ey)]]]]];
        rewrite Ex, Ey in H; subst;
        first
          [ apply app_inv_head in H; split; [reflexivity | exact H]
          | cbn in H; discriminate H
          | cbn in H; injection H as Hh Ht; subst;
            first
              [ split; [reflexivity | exact Ht]
              | vm_compute in Hx; discriminate Hx
              | vm_compute in Hy; discriminate Hy ] ]. }
      destruct Hxy as (-> & Hrest). f_equal. apply IH. exact Hrest.
Qed.

(** X20.  [validateSearchInput] returns at most 100 code units, all of them
    word characters, white space, hyphen, underscore or full stop; it changes
    nothing in an input that already is like that, so validating twice is
    validating once. *)
Theorem validateSearchInput_bounded_and_clean (input : CodeUnits) :
  (List.length (validateSearchInput input) <= 100)%nat
  /\ Forall (fun c => isSearchChar c = true) (validateSearchInput input)
  /\ validateSearchInput (validateSearchInput input) = validateSearchInput input
  /\ ((List.length input <= 100)%nat ->
      Forall (fun c => isSearchChar c = true) input ->
      validateSearchInput input = input).
Proof.
  assert (Hfix : forall l,
            (List.length l <= 100)%nat ->
            Forall (fun c => isSearchChar c = true) l ->
            validateSearchInput l = l).
  { intros l Hlen Hall. unfold validateSearchInput.
    rewrite firstn_all2 by exact Hlen.
    clear Hlen. induction Hall as [|c l Hc _ IH]; [reflexivity|].
    cbn [filter]. rewrite Hc. f_equal. exact IH. }
  assert (Hlen : (List.length (validateSearchInput input) <= 100)%nat).
  { unfold validateSearchInput.
    eapply Nat.le_trans; [apply filter_length_le|].
    rewrite length_firstn. lia. }
  assert (Hall : Forall (fun c => isSearchChar c = true)
                   (validateSearchInput input)).
  { unfold validateSearchInput. apply Forall_forall. intros c Hin.
    apply filter_In in Hin. exact (proj2 Hin). }
  split; [exact Hlen|]. split; [exact Hall|].
  split; [exact (Hfix _ Hlen Hall) | exact (Hfix input)].
Qed.

Lemma validateSearchInput_bounded_and_clean_witness :
  validateSearchInput (lit "inc-01 <script>.md") = lit "inc-01 script.md"
  /\ validateSearchInput (lit "inc-01 script.md") = lit "inc-01 script.md".
Proof.
  split; [reflexivity|].
  apply (proj2 (proj2 (proj2
    (validateSearchInput_bounded_and_clean (lit "inc-01 script.md"))))).
  - cbn. lia.
  - repeat constructor.
Defined.

Lemma code_unit_accumulate_zero_iff (a b : CodeUnits) (count : nat) :
  forall i result,
    forRange count i
      (fun i result => N.lor result (N.lxor (codeUnitAt a i) (codeUnitAt b i)))
      result = 0%N <->
    result = 0%N /\
    forall j, (i <= j < i + count)%nat -> codeUnitAt a j = codeUnitAt b j.
Proof.
  induction count as [|k IH]; intros i result; simpl.
  - split; [intros H; split; [exact H | intros j Hj; lia] | intros [H _]; exact H].
  - rewrite IH. rewrite N.lor_eq_0_iff, N.lxor_eq_0_iff.
    split.
    + intros [[Hr Hi] Hrest]. split; [exact Hr|].
      intros j Hj. destruct (Nat.eq_dec j i) as [->|Hne]; [exact Hi|].
      apply Hrest. lia.
    + intros [Hr Hall].
      split; [split; [exact Hr | apply Hall; lia] |].
      intros j Hj. apply Hall. lia.
Qed.

(** X21.  [secureCompare] answers [true] exactly when its two arguments are
    the same string. *)
Theorem secureCompare_true_iff_equal (a b : CodeUnits) :
  secureCompare a b = true <-> a = b.
Proof.
  unfold secureCompare.
  destruct (Nat.eqb (List.length a) (List.length b)) eqn:Hlen; cbn [negb].
  - apply Nat.eqb_eq in Hlen. rewrite N.eqb_eq.
    rewrite code_unit_accumulate_zero_iff. split.
    + intros [_ Hall]. apply (nth_ext _ _ 0%N 0%N Hlen).
      intros j Hj. apply Hall. lia.
    + intros ->. split; [reflexivity | intros; reflexivity].
  - apply Nat.eqb_neq in Hlen. split; [discriminate|].
    intros ->. contradiction.
Qed.

(** ** Dashboard *)

Lemma priorityIs_eq (p : string) (f : DecryptedFile.t) :
  priorityIs p f = true <-> DecryptedFile.priority f = Some p.
Proof.
  unfold priorityIs. destruct (DecryptedFile.priority f) as [q|].
  - rewrite String.eqb_eq. split; [intros ->; reflexivity|].
    intros H. injection H as ->. reflexivity.
  - split; discriminate.
Qed.

Lemma sections_exclusive (f : DecryptedFile.t) :
  (priorityIs "critical" f = true ->
   priorityIs "high" f = false /\
   (priorityIs "normal" f || priorityMissing f) = false)
  /\ (priorityIs "high" f = true ->
      (priorityIs "normal" f || priorityMissing f) = false).
Proof.
  split; intros H; apply priorityIs_eq in H;
    unfold priorityIs, priorityMissing; rewrite H; repeat split.
Qed.

Lemma filter_lengths_exclusive {A} (p q r : A -> bool) (l : list A) :
  (forall x, p x = true -> q x = false /\ r x = false) ->
  (forall x, q x = true -> r x = false) ->
  (List.length (filter p l) + List.length (filter q l)
   + List.length (filter r l)
   = List.length (filter (fun x => p x || q x || r x) l))%nat.
Proof.
  intros Hp Hq. induction l as [|x l IH]; [reflexivity|].
  cbn [filter].
  destruct (p x) eqn:Ep.
  - destruct (Hp x Ep) as (-> & ->). cbn. lia.
  - destruct (q x) eqn:Eq.
    + rewrite (Hq x Eq). cbn. lia.
    + destruct (r x); cbn; lia.
Qed.

(** X22.  The three sections of the dashboard never list a document twice:
    no document is in two sections, and together they hold exactly the held
    documents whose priority is critical, high, normal, missing or empty.
    A document of any other priority, such as low, is in none. *)
Theorem dashboard_sections_are_disjoint (decryptedFiles : list DecryptedFile.t)
    (f : DecryptedFile.t) :
  (In f (criticalFiles decryptedFiles) ->
   ~ In f (highFiles decryptedFiles) /\ ~ In f (normalFiles decryptedFiles))
  /\ (In f (highFiles decryptedFiles) -> ~ In f (normalFiles decryptedFiles))
  /\ (In f (criticalFiles decryptedFiles ++ highFiles decryptedFiles
            ++ normalFiles decryptedFiles)
      <-> In f decryptedFiles /\ listed f = true)
  /\ (List.length (criticalFiles decryptedFiles)
      + List.length (highFiles decryptedFiles)
      + List.length (normalFiles decryptedFiles)
      = List.length (filter listed decryptedFiles))%nat
  /\ (DecryptedFile.priority f = Some "low"%string ->
      ~ In f (criticalFiles decryptedFiles ++ highFiles decryptedFiles
              ++ normalFiles decryptedFiles)).
Proof.
  unfold criticalFiles, highFiles, normalFiles.
  destruct (sections_exclusive f) as (Hc & Hh).
  assert (Hunion :
    In f (filter (priorityIs "critical") decryptedFiles
          ++ filter (priorityIs "high") decryptedFiles
          ++ filter (fun f => priorityIs "normal" f || priorityMissing f)
               decryptedFiles)
    <-> In f decryptedFiles /\ listed f = true).
  { rewrite !in_app_iff, !filter_In. unfold listed.
    rewrite <- !orb_assoc, !orb_true_iff. tauto. }
  split; [|split; [|split; [|split]]].
  - intros H. apply filter_In in H. destruct (Hc (proj2 H)) as (H1 & H2).
    split; intros H'; apply filter_In in H'; destruct H' as (_ & H');
      congruence.
  - intros H. apply filter_In in H. pose proof (Hh (proj2 H)) as H1.
    intros H'. apply filter_In in H'. destruct H' as (_ & H'). congruence.
  - exact Hunion.
  - rewrite (filter_lengths_exclusive (priorityIs "critical") (priorityIs "high")
               (fun f => priorityIs "normal" f || priorityMissing f)).
    + apply f_equal. apply filter_ext. intros x. unfold listed.
      rewrite <- !orb_assoc. reflexivity.
    + intros x. apply sections_exclusive.
    + intros x. apply sections_exclusive.
  - intros Hlow H. apply Hunion in H. destruct H as (_ & H).
    unfold listed, priorityIs, priorityMissing in H. rewrite Hlow in H.
    discriminate H.
Qed.

Lemma dashboard_sections_are_disjoint_witness :
  let low :=
    {| DecryptedFile.id := "doc-9"; DecryptedFile.title := "Archive";
       DecryptedFile.priority := Some "low"%string; DecryptedFile.tags := None;
       DecryptedFile.content := "old" |} in
  ~ In low (criticalFiles [low] ++ highFiles [low] ++ normalFiles [low]).
Proof.
  intros low.
  exact (proj2 (proj2 (proj2 (proj2
           (dashboard_sections_are_disjoint [low] low)))) eq_refl).
Defined.

Lemma existsb_eqb_In (v : string) (seen : list string) :
  existsb (String.eqb v) seen = true <-> In v seen.
Proof.
  rewrite existsb_exists. split.
  - intros (x & Hin & Heq). apply String.eqb_eq in Heq. subst. exact Hin.
  - intros Hin. exists v. split; [exact Hin | apply String.eqb_refl].
Qed.

Lemma setFrom_spec (values : list string) :
  forall seen,
    NoDup seen ->
    NoDup (setFrom values seen)
    /\ forall x, In x (setFrom values seen) <-> In x seen \/ In x values.
Proof.
  induction values as [|v rest IH]; intros seen Hnd.
  - cbn. split; [exact Hnd | intros x; tauto].
  - cbn [setFrom].
    destruct (existsb (String.eqb v) seen) eqn:E.
    + apply existsb_eqb_In in E.
      destruct (IH seen Hnd) as (H1 & H2). split; [exact H1|].
      intros x. rewrite H2. cbn [In]. split; [tauto|].
      intros [H|[->|H]]; tauto.
    + assert (Hnot : ~ In v seen).
      { intros Hin. apply existsb_eqb_In in Hin. congruence. }
      assert (Hnd' : NoDup (seen ++ [v])).
      { apply NoDup_app; [exact Hnd | repeat constructor; intros [] |].
        intros a Ha [<-|[]]. contradiction. }
      destruct (IH (seen ++ [v]) Hnd') as (H1 & H2). split; [exact H1|].
      intros x. rewrite H2, in_app_iff. cbn [In]. tauto.
Qed.

(** X23.  The categories shown on the dashboard are at most ten tags, without
    repetition, each carried by some held document; when the documents carry
    at most ten distinct tags, every tag is shown. *)
Theorem allTags_distinct_and_capped (decryptedFiles : list DecryptedFile.t) :
  NoDup (allTags decryptedFiles)
  /\ (List.length (allTags decryptedFiles) <= 10)%nat
  /\ (forall t, In t (allTags decryptedFiles) ->
        exists f, In f decryptedFiles /\ In t (tagsOf f))
  /\ ((List.length (setFrom (flat_map tagsOf decryptedFiles) []) <= 10)%nat ->
      forall f t, In f decryptedFiles -> In t (tagsOf f) ->
                  In t (allTags decryptedFiles)).
Proof.
  unfold allTags.
  destruct (setFrom_spec (flat_map tagsOf decryptedFiles) [] (NoDup_nil _))
    as (Hnd & Hin).
  split; [|split; [|split]].
  - rewrite <- (firstn_skipn 10) in Hnd. exact (NoDup_app_remove_r _ _ Hnd).
  - rewrite length_firstn. lia.
  - intros t Ht.
    assert (Ht' : In t (setFrom (flat_map tagsOf decryptedFiles) [])).
    { rewrite <- (firstn_skipn 10). apply in_or_app. left. exact Ht. }
    apply Hin in Ht'. destruct Ht' as [[]|Ht'].
    apply in_flat_map in Ht'. exact Ht'.
  - intros Hlen f t Hf Ht. rewrite firstn_all2 by exact Hlen.
    apply Hin. right. apply in_flat_map. exists f. split; assumption.
Qed.

Lemma allTags_distinct_and_capped_witness :
  allTags
    [{| DecryptedFile.id := "a"; DecryptedFile.title := "A";
        DecryptedFile.priority := None;
        DecryptedFile.tags := Some ["ir"%string; "net"%string];
        DecryptedFile.content := "" |};
     {| DecryptedFile.id := "b"; DecryptedFile.title := "B";
        DecryptedFile.priority := None;
        DecryptedFile.tags := Some ["net"%string; "dr"%string];
        DecryptedFile.content := "" |};
     {| DecryptedFile.id := "c"; DecryptedFile.title := "C";
        DecryptedFile.priority := None; DecryptedFile.tags := None;
        DecryptedFile.content := "" |}]
  = ["ir"%string; "net"%string; "dr"%string]
  /\ In "dr"%string
       (allTags
          [{| DecryptedFile.id := "b"; DecryptedFile.title := "B";
              DecryptedFile.priority := None;
              DecryptedFile.tags := Some ["net"%string; "dr"%string];
              DecryptedFile.content := "" |}]).
Proof.
  split; [reflexivity|].
  apply (proj2 (proj2 (proj2 (allTags_distinct_and_capped
           [{| DecryptedFile.id := "b"; DecryptedFile.title := "B";
               DecryptedFile.priority := None;
               DecryptedFile.tags := Some ["net"%string; "dr"%string];
               DecryptedFile.content := "" |}]))))
    with (f := {| DecryptedFile.id := "b"; DecryptedFile.title := "B";
                  DecryptedFile.priority := None;
                  DecryptedFile.tags := Some ["net"%string; "dr"%string];
                  DecryptedFile.content := "" |}).
  - cbn. lia.
  - left. reflexivity.
  - right. left. reflexivity.
Defined.

(** ** The decryption loop and the platform *)

Lemma events_bind {A B} (m : M A) (k : A -> M B) :
  traceOnly m -> (forall a, traceOnly (k a)) ->
  events (bind m k)
  = events m ++ match outcome m with Ok a => events (k a) | Throw _ => [] end.
Proof.
  intros Hm Hk. unfold events at 1. unfold bind. rewrite (Hm initialWorld).
  destruct (outcome m) as [a|e].
  - rewrite (Hk a). cbn. reflexivity.
  - cbn. now rewrite app_nil_r.
Qed.

(** The platform calls of one [decryptData]: none, or one decryption with the
    given key, the decoded nonce and a 128-bit tag; one whenever it succeeds. *)
Lemma decryptData_events (P : Platform) (key : CryptoKey)
    (ivHex encryptedBase64 : string) :
  (events (decryptData P key ivHex encryptedBase64) = [] /\
   isOk (outcome (decryptData P key ivHex encryptedBase64)) = false)
  \/ (exists iv,
        hexToBuffer ivHex = Ok iv /\
        events (decryptData P key ivHex encryptedBase64)
        = [EvDecrypt key
             {| gcm_name := "AES-GCM"; gcm_iv := iv; gcm_tagLength := 128 |}]).
Proof.
  unfold outcome, events, decryptData, decrypt, bind, liftR, emit, ret.
  destruct (hexToBuffer ivHex) as [iv|e]; [|left; split; reflexivity].
  destruct (base64ToBuffer P encryptedBase64) as [payload|e];
    [|left; split; reflexivity].
  right. exists iv. split; [reflexivity|]. cbn.
  destruct (subtle_decrypt P _ key payload); reflexivity.
Qed.

(** X24.  The decryption loop asks the platform to decrypt at most once per
    document and always with the key it was given; when it succeeds there
    was exactly one call per document, in manifest order, each with that
    document's decoded nonce. *)
Theorem decryptLoop_one_call_per_document (P : Platform) (key : CryptoKey)
    (files : list VaultFile.t) (decrypted : list DecryptedFile.t) :
  (List.length (events (decryptLoop P key files decrypted))
   <= List.length files)%nat
  /\ Forall (fun ev => exists params, ev = EvDecrypt key params)
       (events (decryptLoop P key files decrypted))
  /\ (isOk (outcome (decryptLoop P key files decrypted)) = true ->
      events (decryptLoop P key files decrypted)
      = map (fun file =>
               EvDecrypt key
                 {| gcm_name := "AES-GCM";
                    gcm_iv :=
                      match hexToBuffer (VaultFile.iv file) with
                      | Ok iv => iv
                      | Throw _ => []
                      end;
                    gcm_tagLength := 128 |}) files).
Proof.
  revert decrypted. induction files as [|file rest IH]; intros decrypted.
  - cbn. repeat split; [lia | constructor].
  - cbn [decryptLoop].
    rewrite events_bind, outcome_bind
      by (try apply traceOnly_decryptData; intros; apply traceOnly_decryptLoop).
    destruct (decryptData_events P key (VaultFile.iv file) (VaultFile.data file))
      as [(Hev & Hout)|(iv & Hiv & Hev)]; rewrite Hev.
    + destruct (outcome (decryptData P key (VaultFile.iv file)
                           (VaultFile.data file))) as [content|e];
        [discriminate Hout|].
      cbn. repeat split; [lia | constructor | discriminate].
    + destruct (outcome (decryptData P key (VaultFile.iv file)
                           (VaultFile.data file))) as [content|e].
      * match goal with
        | |- context [decryptLoop P key rest ?acc] =>
            destruct (IH acc) as (H1 & H2 & H3)
        end.
        cbn [app List.length map]. split; [lia|]. split.
        -- constructor; [eexists; reflexivity | exact H2].
        -- intros Hok. rewrite (H3 Hok), Hiv. reflexivity.
      * cbn. split; [lia|]. split; [|discriminate].
        constructor; [eexists; reflexivity | constructor].
Qed.

Lemma decryptLoop_one_call_per_document_witness :
  events (decryptLoop Demo.platform Demo.encryptionKey
            [Demo.incidentResponse] [])
  = [EvDecrypt Demo.encryptionKey
       {| gcm_name := "AES-GCM";
          gcm_iv := map (fun n => ToUint8 (N.of_nat n)) (seq 0 12);
          gcm_tagLength := 128 |}].
Proof.
  exact (proj2 (proj2 (decryptLoop_one_call_per_document Demo.platform
                         Demo.encryptionKey [Demo.incidentResponse] []))
           eq_refl).
Defined.

Lemma sanitizeText_injective_witness :
  sanitizeText (lit "x&y<z") = sanitizeText (lit "x&y<z")
  /\ lit "x&y<z" = lit "x&y<z".
Proof.
  split; [reflexivity|].
  exact (sanitizeText_injective (lit "x&y<z") (lit "x&y<z") eq_refl).
Defined.

Lemma gate_and_countdown_agree_witness :
  exists locked remaining,
    isLocked Demo.platform (afterFailures 5) = (Ok locked, tick (afterFailures 5)) /\
    getRemainingLockoutMs Demo.platform (afterFailures 5)
    = (Ok remaining, tick (afterFailures 5)) /\
    locked = true /\ remaining = 14000.
Proof.
  destruct (gate_and_countdown_agree Demo.platform (afterFailures 5))
    as (locked & remaining & H1 & H2 & _ & _ & _ & H6).
  exists locked, remaining. split; [exact H1|]. split; [exact H2|].
  assert (Hl : locked = true).
  { rewrite isLocked_run in H1. injection H1 as <-. vm_compute. reflexivity. }
  split; [exact Hl|]. rewrite (H6 Hl). vm_compute. reflexivity.
Defined.

Lemma secureCompare_true_iff_equal_witness :
  secureCompare (lit "s3cret") (lit "s3cret") = true
  /\ secureCompare (lit "s3cret") (lit "s3creT") = false.
Proof.
  split.
  - exact (proj2 (secureCompare_true_iff_equal (lit "s3cret") (lit "s3cret"))
             eq_refl).
  - reflexivity.
Defined.
